(** * Signal-detection core of the BB + MACD + EMA monitor (src/v5.py)

    A shallow embedding of [analyze_strategy] and [send_telegram_msg], and
    of the script around them: the secrets, the list of symbols,
    [fetch_data] and the loop that renders the page.

    Numbers.  The program computes on IEEE doubles held in pandas columns.
    Here a number is an exact rational in lowest terms ([Qc]); a cell that
    pandas leaves
    undefined (NaN: an incomplete rolling window, a division by zero) is
    [None] in an [option Qc] cell, and every comparison with such a cell is
    false, as in Python.  The square root used by the rolling standard
    deviation is not a rational operation: it is a parameter [sqrt] of the
    development.  The rounding and the overflow of doubles are not
    modelled: a statement on the value a column holds is a statement on
    exact arithmetic, and the statements below that are meant of the
    program itself are on which row is read, which comparison decides,
    what is stored and what is sent.

    Effects.  The program reads and writes the process-wide dictionary
    [st.session_state.last_alerts] and posts to the Telegram HTTP API.  Both
    live in a [World]; whether the n-th HTTP request of the process goes
    through or raises is given by a parameter [network_up]. *)

From Stdlib Require Import QArith Qcanon ZArith Lia Lqa.
From stdpp Require Import base option list gmap strings.

Open Scope string_scope.

(** ** Numbers and NaN cells *)

Module Num.

(** An integer literal. *)
Definition num (z : Z) : Qc := Q2Qc (inject_Z z).

Definition Qcle_bool (x y : Qc) : bool := Qle_bool x y.

Definition Qclt_bool (x y : Qc) : bool :=
  (Qnum x * QDen y <? Qnum y * QDen x)%Z.

(** A pandas cell: [None] is NaN. *)
Definition cell := option Qc.

Definition cell_add (a b : cell) : cell :=
  match a, b with Some x, Some y => Some (x + y)%Qc | _, _ => None end.

Definition cell_sub (a b : cell) : cell :=
  match a, b with Some x, Some y => Some (x - y)%Qc | _, _ => None end.

Definition cell_mul (a b : cell) : cell :=
  match a, b with Some x, Some y => Some (x * y)%Qc | _, _ => None end.

(** numpy division: a zero divisor gives inf or NaN, never an exception.
    Both are [None] here, a result that is no finite number; the program
    only prints this cell, it never compares it. *)
Definition cell_div (a b : cell) : cell :=
  match a, b with
  | Some x, Some y => if Qeq_bool y 0 then None else Some (x / y)%Qc
  | _, _ => None
  end.

(** [a < b] on cells; false as soon as one side is NaN. *)
Definition cell_lt (a b : cell) : bool :=
  match a, b with Some x, Some y => Qclt_bool x y | _, _ => false end.

(** The same order, as a proposition. *)
Definition cell_Lt (a b : cell) : Prop :=
  match a, b with Some x, Some y => (x < y)%Qc | _, _ => False end.

End Num.
Import Num.

(** ** The pandas operations the program uses *)

Module Frame.

(** One row of the downloaded frame. *)
Record Bar := mkBar {
  Open : Qc; High : Qc; Low : Qc; Close : Qc; Volume : Qc
}.

(** One row of the frame after [analyze_strategy] added its columns. *)
Record Row := mkRow {
  bar : Bar;
  BB_Mid : cell; BB_Upper : cell; BB_Lower : cell;
  MACD : Qc; Signal_Line : Qc; MACD_Hist : Qc;
  EMA_F : Qc; EMA_S : Qc
}.

Definition sum (xs : list Qc) : Qc := foldr Qcplus 0%Qc xs.

Definition count (xs : list Qc) : Qc := num (Z.of_nat (length xs)).

(** [Series.mean()]: NaN on an empty series. *)
Definition mean (xs : list Qc) : cell :=
  match xs with
  | [] => None
  | _ => Some (sum xs / count xs)%Qc
  end.

(** The trailing window of [w] observations that ends at position [i];
    [rolling(window=w)] has [min_periods = w], so a shorter prefix gives no
    window. *)
Definition window (w : nat) (xs : list Qc) (i : nat) : option (list Qc) :=
  if (w <=? S i)%nat then Some (take w (drop (S i - w) xs)) else None.

(** [xs.rolling(window=w).agg()] *)
Definition rolling (w : nat) (agg : list Qc → cell) (xs : list Qc) : list cell :=
  (λ i, window w xs i ≫= agg) <$> seq 0 (length xs).

(** [xs.tail(n)] *)
Definition tail (n : nat) {A} (xs : list A) : list A :=
  drop (length xs - n) xs.

(** [span] to smoothing factor: alpha = 2 / (span + 1). *)
Definition alpha (span : Z) : Qc := (num 2 / num (span + 1))%Qc.

(** [xs.ewm(span, adjust=False).mean()]: y0 = x0 and
    y_t = (1 - alpha) y_(t-1) + alpha x_t. *)
Fixpoint ewm_from (a y : Qc) (xs : list Qc) : list Qc :=
  match xs with
  | [] => []
  | x :: xs' =>
      let y' := ((1 - a) * y + a * x)%Qc in
      y' :: ewm_from a y' xs'
  end.

Definition ewm_mean (span : Z) (xs : list Qc) : list Qc :=
  match xs with
  | [] => []
  | x :: xs' => x :: ewm_from (alpha span) x xs'
  end.

(** Column-wise application: the next column is applied row by row. *)
Definition zap {A B} (fs : list (A → B)) (xs : list A) : list B :=
  zip_with (λ f x, f x) fs xs.

Section Std.
Variable sqrt : Qc → Qc.

(** [Series.std()], the sample standard deviation (ddof = 1): NaN when
    there are fewer than two observations. *)
Definition std (xs : list Qc) : cell :=
  match mean xs with
  | Some m =>
      if (length xs <=? 1)%nat then None
      else Some (sqrt (sum ((λ x, (x - m) * (x - m))%Qc <$> xs) / (count xs - 1))%Qc)
  | None => None
  end.
End Std.

End Frame.
Import Frame.

(** ** Exceptions, the world and the effect monad *)

Inductive exn := IndexError | ConnectionError.

Inductive result (A : Type) :=
| Ok (a : A)
| Raise (e : exn).
Arguments Ok {A} a.
Arguments Raise {A} e.

(** The text of one Telegram message, by the fields the f-string
    interpolates (their rendering to characters is not modelled). *)
Record TgText := mkTgText {
  tg_sym : string;
  tg_msg : string;
  tg_price : Qc;
  tg_macd : string;
  tg_vol_ratio : cell
}.

(** [last_alerts] is [st.session_state.last_alerts]; [posted] is the log of
    the HTTP requests made so far, each with whether it went through. *)
Record World := mkWorld {
  last_alerts : gmap string string;
  posted : list (TgText * bool)
}.

Definition M (A : Type) : Type := World → result A * World.

Definition ret {A} (a : A) : M A := λ w, (Ok a, w).

Definition bind {A B} (m : M A) (k : A → M B) : M B :=
  λ w, match m w with
       | (Ok a, w') => k a w'
       | (Raise e, w') => (Raise e, w')
       end.

Definition raise {A} (e : exn) : M A := λ w, (Raise e, w).

(** [try: body  except: handler] with a bare [except]. *)
Definition try_except {A} (body : M A) (handler : exn → M A) : M A :=
  λ w, match body w with
       | (Ok a, w') => (Ok a, w')
       | (Raise e, w') => handler e w'
       end.

Notation "'do' x <- m ; k" := (bind m (λ x, k))
  (at level 10, x name, m at level 100, k at level 200, only parsing).
Notation "'run' m ; k" := (bind m (λ _, k))
  (at level 10, m at level 100, k at level 200, only parsing).

(** [df.iloc[-k]] for k >= 1: out of range raises [IndexError]. *)
Definition iloc_neg {A} (df : list A) (k : nat) : M A :=
  if (k <=? length df)%nat then
    match df !! (length df - k)%nat with
    | Some r => ret r
    | None => raise IndexError
    end
  else raise IndexError.

(** [st.session_state.last_alerts.get(sym)] *)
Definition alerts_get (sym : string) : M (option string) :=
  λ w, (Ok (last_alerts w !! sym), w).

(** [st.session_state.last_alerts[sym] = key] *)
Definition alerts_set (sym key : string) : M unit :=
  λ w, (Ok tt, mkWorld (<[sym := key]> (last_alerts w)) (posted w)).

(** ** The program *)

(** The literals of the program.  The specification names the same labels
    in English; each definition below carries the specification's name and
    holds the program's literal. *)
Module Label.
Definition trend_stable : string := "趨勢穩定".
Definition strong_buy : string := "🔥 強烈買入 (EMA+MACD)".
Definition golden_cross : string := "🚀 黃金交叉".
Definition death_cross : string := "💀 死亡交叉".
Definition touching_upper : string := "🔔 觸碰布林上軌 (超買)".
Definition touching_lower : string := "📉 觸碰布林下軌 (超賣)".

  (** severity: info / warning / critical *)
Definition info : string := "success".
Definition warning : string := "warning".
Definition critical : string := "error".

  (** bb_position: inside / outside *)
Definition inside : string := "軌道內".
Definition outside : string := "軌道外".
  (** macd_status: bullish / bearish *)
Definition macd_bullish : string := "多頭轉強".
Definition macd_bearish : string := "空頭轉強".
  (** trend: bullish / bearish *)
Definition trend_bullish : string := "多頭 (Bullish)".
Definition trend_bearish : string := "空頭 (Bearish)".
  (** MACD direction in the Telegram text *)
Definition tg_bulls : string := "📈 多方佔優".
Definition tg_bears : string := "📉 空方佔優".
End Label.

(** The three variables of the decision chain: [msg], [alert_level],
    [has_trigger]. *)
Record Verdict := mkVerdict {
  msg : string;
  alert_level : string;
  has_trigger : bool
}.

(** The dictionary [info] that [analyze_strategy] returns. *)
Record Info := mkInfo {
  price : Qc;
  bb_pos : string;
  macd_status : string;
  trend : string;
  info_msg : string;
  info_alert_level : string
}.

(** Lines 68-80: the defaults, then the EMA crossover. *)
Definition crossover (prev last : Row) : Verdict :=
  let v := mkVerdict Label.trend_stable Label.info false in
  if Qcle_bool (EMA_F prev) (EMA_S prev) && Qclt_bool (EMA_S last) (EMA_F last) then
    if Qclt_bool 0%Qc (MACD_Hist last)
    then mkVerdict Label.strong_buy Label.critical true
    else mkVerdict Label.golden_cross Label.warning true
  else if Qcle_bool (EMA_S prev) (EMA_F prev) && Qclt_bool (EMA_F last) (EMA_S last) then
    mkVerdict Label.death_cross Label.critical true
  else v.

(** Lines 83-86: the Bollinger breakout assigns [msg] and [alert_level]
    only. *)
Definition bollinger (curr_p : Qc) (last : Row) (v : Verdict) : Verdict :=
  if cell_lt (BB_Upper last) (Some curr_p) then
    mkVerdict Label.touching_upper Label.warning (has_trigger v)
  else if cell_lt (Some curr_p) (BB_Lower last) then
    mkVerdict Label.touching_lower Label.warning (has_trigger v)
  else v.

(** Line 89: [alert_key = f"{sym}_{msg}"]. *)
Definition alert_key (sym m : string) : string := sym ++ "_" ++ m.

(** Lines 99-105. *)
Definition make_info (curr_p : Qc) (last : Row) (v : Verdict) : Info :=
  mkInfo curr_p
    (if cell_lt (BB_Lower last) (Some curr_p) && cell_lt (Some curr_p) (BB_Upper last)
     then Label.inside else Label.outside)
    (if Qclt_bool 0%Qc (MACD_Hist last) then Label.macd_bullish else Label.macd_bearish)
    (if Qclt_bool (EMA_S last) (EMA_F last) then Label.trend_bullish else Label.trend_bearish)
    (msg v) (alert_level v).

Section Program.
Variable sqrt : Qc → Qc.
Variable network_up : nat → bool.

  (** [requests.post(url, json=payload, timeout=5)]: the request is logged;
      when the network is down it raises. *)
Definition requests_post (text : TgText) : M unit :=
    λ w, let up := network_up (length (posted w)) in
         let w' := mkWorld (last_alerts w) (posted w ++ [(text, up)]) in
         if up then (Ok tt, w') else (Raise ConnectionError, w').

  (** Lines 17-22. *)
Definition send_telegram_msg (message : TgText) : M unit :=
    try_except (requests_post message) (λ _, ret tt).

  (** Lines 45-60: the columns, then the rows they form. *)
Definition enrich (df : list Bar) : list Row :=
    let close := Close <$> df in
    let bb_mid := rolling 20 mean close in
    let std20 := rolling 20 (std sqrt) close in
    let bb_upper := zip_with cell_add bb_mid ((λ s, cell_mul s (Some (num 2))) <$> std20) in
    let bb_lower := zip_with cell_sub bb_mid ((λ s, cell_mul s (Some (num 2))) <$> std20) in
    let exp1 := ewm_mean 12 close in
    let exp2 := ewm_mean 26 close in
    let macd := zip_with Qcminus exp1 exp2 in
    let signal_line := ewm_mean 9 macd in
    let macd_hist := zip_with Qcminus macd signal_line in
    let ema_f := ewm_mean 9 close in
    let ema_s := ewm_mean 21 close in
    zap (zap (zap (zap (zap (zap (zap (zap (mkRow <$> df)
      bb_mid) bb_upper) bb_lower) macd) signal_line) macd_hist) ema_f) ema_s.

  (** Lines 91-95. *)
Definition tg_text (sym : string) (df : list Row) (last : Row)
      (curr_p : Qc) (m : string) : TgText :=
    mkTgText sym m curr_p
      (if Qclt_bool 0%Qc (MACD_Hist last) then Label.tg_bulls else Label.tg_bears)
      (cell_div (Some (Volume (bar last)))
                (mean (tail 10 ((λ r, Volume (bar r)) <$> df)))).

  (** Lines 42-106.  [(None, None)] is [None]; [(df, info)] is
      [Some (df, info)]. *)
Definition analyze_strategy (df : option (list Bar)) (sym : string)
      : M (option (list Row * Info)) :=
    match df with
    | None => ret None
    | Some df =>
        if (length df <? 35)%nat then ret None
        else
          let df := enrich df in
          do last <- iloc_neg df 1;
          do prev <- iloc_neg df 2;
          let curr_p := Close (bar last) in
          let v := bollinger curr_p last (crossover prev last) in
          let key := alert_key sym (msg v) in
          do stored <- alerts_get sym;
          run (if has_trigger v && negb (bool_decide (stored = Some key)) then
                 run send_telegram_msg (tg_text sym df last curr_p (msg v));
                 alerts_set sym key
               else ret tt);
          ret (Some (df, make_info curr_p last v))
    end.

(** The final [msg], [alert_level] and [has_trigger] of a frame: the
    decision chain on its last two rows. *)
Definition verdict_of (df : list Bar) : option Verdict :=
  let rows := enrich df in
  last ← rows !! (length rows - 1)%nat;
  prev ← rows !! (length rows - 2)%nat;
  Some (bollinger (Close (bar last)) last (crossover prev last)).

End Program.

(** The guard of line 90: a trigger whose key is not the stored one. *)
Definition fires (sym : string) (v : Verdict) (w : World) : bool :=
  has_trigger v &&
  negb (bool_decide (last_alerts w !! sym = Some (alert_key sym (msg v)))).

(** The world after lines 90-97, when the guard holds: one more request in
    the log, delivered or not, and the key stored. *)
Definition notified (network_up : nat → bool) (sym : string) (v : Verdict)
    (text : TgText) (w : World) : World :=
  mkWorld (<[sym := alert_key sym (msg v)]> (last_alerts w))
          (posted w ++ [(text, network_up (length (posted w)))]).

(** A column that holds the same number in every row. *)
Definition constant (c : Qc) (xs : list Qc) : Prop := ∀ x, x ∈ xs → x = c.

(** What [analyze_strategy] accepts: a frame of at least 35 bars. *)
Definition short (df : option (list Bar)) : Prop :=
  match df with
  | None => True
  | Some l => (length l < 35)%nat
  end.

(** ** A concrete square root and concrete inputs *)

(** The square root rounded down to a multiple of 2^-53. *)
Definition sqrt_floor (q : Qc) : Qc :=
  Q2Qc (Qmake (Z.sqrt (Qnum q * 2 ^ 106 / QDen q)) (2 ^ 53)).

Definition flat_bar (c : Qc) : Bar := mkBar c c c c (num 1000).

Definition empty_world : World := mkWorld ∅ [].

(** 34 bars at 100, then a jump to 110. *)
Definition jump_series : list Bar :=
  replicate 34 (flat_bar (num 100)) ++ [flat_bar (num 110)].

Definition always_up : nat → bool := λ _, true.
Definition always_down : nat → bool := λ _, false.

Definition bars (closes : list Z) : list Bar :=
  (λ z, flat_bar (num z)) <$> closes.

Definition zigzag (n : nat) (a b : Z) : list Z :=
  flat_map (λ _, [a; b]) (seq 0 n).

(** A bullish cross with a positive histogram, inside the bands. *)
Definition strong_buy_series : list Bar :=
  bars (zigzag 16 100 104 ++ [100; 102; 104]%Z)%list.

(** A bullish cross with a negative histogram, inside the bands. *)
Definition golden_series : list Bar :=
  bars (zigzag 16 100 104 ++ [100; 101; 103]%Z)%list.

(** A bearish cross, inside the bands. *)
Definition death_series : list Bar :=
  bars (zigzag 16 104 100 ++ [104; 103; 101]%Z)%list.

(** No cross, and a close above the upper band. *)
Definition breakout_series : list Bar :=
  bars (zigzag 17 100 104 ++ [107]%Z)%list.

(** A row given by the numbers the decision chain reads:
    close, the two bands, the histogram and the two EMAs. *)
Definition row_of (close upper lower hist ema_f ema_s : Qc) : Row :=
  mkRow (flat_bar close) (Some ((upper + lower) / num 2)%Qc)
        (Some upper) (Some lower) 0%Qc 0%Qc hist ema_f ema_s.

Definition flat_series : list Bar := replicate 40 (flat_bar (num 100)).

Definition short_series : list Bar := replicate 34 (flat_bar (num 100)).

(** The outcomes of the seven comparisons the decision chain makes on the
    last two rows, in program order. *)
Definition comparisons (prev last : Row) : list bool :=
  [ Qcle_bool (EMA_F prev) (EMA_S prev);
    Qclt_bool (EMA_S last) (EMA_F last);
    Qclt_bool 0%Qc (MACD_Hist last);
    Qcle_bool (EMA_S prev) (EMA_F prev);
    Qclt_bool (EMA_F last) (EMA_S last);
    cell_lt (BB_Upper last) (Some (Close (bar last)));
    cell_lt (Some (Close (bar last))) (BB_Lower last) ].

Definition last_two_comparisons (df : list Bar) : option (list bool) :=
  let rows := enrich sqrt_floor df in
  last ← rows !! (length df - 1)%nat;
  prev ← rows !! (length df - 2)%nat;
  Some (comparisons prev last).

(** ** The rest of the script *)

(** Lines 10-15.  [st.secrets] is a table of tables; a missing key raises
    [KeyError], which the script answers with [st.error] and [st.stop]. *)
Inductive startup :=
| Halt
| Configured (bot_token chat_id : string).

Definition read_secrets (secrets : gmap string (gmap string string)) : startup :=
  match secrets !! "telegram" with
  | None => Halt
  | Some section =>
      match section !! "bot_token" with
      | None => Halt
      | Some bot_token =>
          match section !! "chat_id" with
          | None => Halt
          | Some chat_id => Configured bot_token chat_id
          end
      end
  end.

(** Lines 28-29: [last_alerts] is created empty when the session has
    none. *)
Definition init_session (session : option (gmap string string))
    : gmap string string :=
  match session with
  | Some alerts => alerts
  | None => ∅
  end.

(** Line 110: the list of symbols from the text of the side bar.  Python
    works on code points; the strings here are bytes.  [split(",")] does
    the same on both, since a comma is one byte that is part of no other
    character.  [strip()] and [upper()] are Python's on ASCII text, so
    [symbols_of] is defined on ASCII text only: other text gives [None],
    it is outside this model. *)
Definition comma : Ascii.ascii := Ascii.ascii_of_N 44.

Definition is_ascii (c : Ascii.ascii) : bool := (Ascii.N_of_ascii c <? 128)%N.

(** [str.isspace] on ASCII: tab to carriage return, the four separators
    28 to 31, and the space. *)
Definition is_space (c : Ascii.ascii) : bool :=
  let n := Ascii.N_of_ascii c in
  ((9 <=? n) && (n <=? 13) || (28 <=? n) && (n <=? 32))%N.

Definition upper_char (c : Ascii.ascii) : Ascii.ascii :=
  let n := Ascii.N_of_ascii c in
  if ((97 <=? n) && (n <=? 122))%N then Ascii.ascii_of_N (n - 32) else c.

Fixpoint all_ascii (s : string) : bool :=
  match s with
  | EmptyString => true
  | String c r => is_ascii c && all_ascii r
  end.

Fixpoint upper (s : string) : string :=
  match s with
  | EmptyString => EmptyString
  | String c r => String (upper_char c) (upper r)
  end.

Fixpoint lstrip (s : string) : string :=
  match s with
  | EmptyString => EmptyString
  | String c r => if is_space c then lstrip r else s
  end.

Fixpoint rstrip (s : string) : string :=
  match s with
  | EmptyString => EmptyString
  | String c r =>
      match rstrip r with
      | EmptyString => if is_space c then EmptyString else String c EmptyString
      | r' => String c r'
      end
  end.

Definition strip (s : string) : string := lstrip (rstrip s).

(** [s.split(",")]: always at least one piece. *)
Fixpoint split_comma (s : string) : list string :=
  match s with
  | EmptyString => [EmptyString]
  | String c r =>
      if Ascii.eqb c comma then EmptyString :: split_comma r
      else match split_comma r with
           | piece :: pieces => String c piece :: pieces
           | [] => [String c EmptyString]
           end
  end.

(** [",".join(pieces)] *)
Fixpoint join_comma (pieces : list string) : string :=
  match pieces with
  | [] => EmptyString
  | [piece] => piece
  | piece :: rest => piece ++ String comma (join_comma rest)
  end.

Fixpoint commas (s : string) : nat :=
  match s with
  | EmptyString => O
  | String c r => if Ascii.eqb c comma then S (commas r) else commas r
  end.

Definition symbols_of (text : string) : option (list string) :=
  if all_ascii text
  then Some ((λ s, upper (strip s)) <$> split_comma text)
  else None.

(** Lines 127-133: what one column of the summary shows. *)
Inductive banner :=
| st_error (body : string)
| st_warning (body : string)
| st_success (body : string).

Record Column := mkColumn {
  col_banner : banner;
  col_captions : list string
}.

Definition render_column (sym : string) (info : option Info) : option Column :=
  match info with
  | None => None
  | Some info =>
      Some (mkColumn
        (if String.eqb (info_alert_level info) "error"
         then st_error ("**" ++ sym ++ " | " ++ info_msg info ++ "**")
         else if String.eqb (info_alert_level info) "warning"
         then st_warning ("**" ++ sym ++ " | " ++ info_msg info ++ "**")
         else st_success ("**" ++ sym ++ " | 監控中**"))
        [ "趨勢: " ++ trend info;
          "MACD: " ++ macd_status info;
          "布林: " ++ bb_pos info ])
  end.

(** Lines 139-158: the chart of one symbol, by what it is drawn from: the
    rows, and the colour of each histogram bar (line 149). *)
Record Chart := mkChart {
  chart_title : string;
  chart_rows : list Row;
  chart_colors : list string
}.

Definition hist_color (r : Row) : string :=
  if Qclt_bool (MACD_Hist r) 0%Qc then "red" else "green".

Definition render_chart (sym : string) (entry : option (list Row * Info))
    : option Chart :=
  match entry with
  | Some (df, _) =>
      Some (mkChart ("📊 " ++ sym ++ " 深度技術分析 (MACD/BB/Vol)")
                    df (hist_color <$> df))
  | None => None
  end.

(** Lines 136-137: [stock_cache[sym]] for every symbol; [None] is a
    [KeyError]. *)
Fixpoint charts (symbols : list string)
    (stock_cache : gmap string (option (list Row * Info)))
    : option (list (option Chart)) :=
  match symbols with
  | [] => Some []
  | sym :: rest =>
      match stock_cache !! sym with
      | None => None
      | Some entry =>
          match charts rest stock_cache with
          | None => None
          | Some cs => Some (render_chart sym entry :: cs)
          end
      end
  end.

(** What one pass of the [while] loop puts on the page. *)
Record Page := mkPage {
  summary : list (option Column);
  analysis : list (option Chart)
}.

(** The messages a notification can carry. *)
Definition triggering_messages : list string :=
  [ Label.strong_buy; Label.golden_cross; Label.death_cross;
    Label.touching_upper; Label.touching_lower ].

(** Every stored key is the key of its own symbol and of one of the
    messages a notification can carry. *)
Definition well_keyed (alerts : gmap string string) : Prop :=
  ∀ s k, alerts !! s = Some k →
         ∃ m, m ∈ triggering_messages ∧ k = alert_key s m.

Section Script.
Variable sqrt : Qc → Qc.
Variable network_up : nat → bool.

(** [yf.download(ticker, period="5d", interval=interval)]: the rows it
    returns, or [None] when it raises. *)
Variable yf_download : string → string → option (list Bar).

Definition download (ticker interval : string) : M (list Bar) :=
  λ w, match yf_download ticker interval with
       | Some data => (Ok data, w)
       | None => (Raise ConnectionError, w)
       end.

(** Lines 32-40.  Flattening the column index (lines 37-38) renames
    columns and leaves the rows as they are. *)
Definition fetch_data (ticker interval : string) : M (option (list Bar)) :=
  try_except
    (do data <- download ticker interval;
     match data with
     | [] => ret None
     | _ => ret (Some data)
     end)
    (λ _, ret None).

(** Lines 119-133: the first loop of a pass. *)
Fixpoint monitor (symbols : list string) (interval : string)
    (stock_cache : gmap string (option (list Row * Info)))
    : M (gmap string (option (list Row * Info)) * list (option Column)) :=
  match symbols with
  | [] => ret (stock_cache, [])
  | sym :: rest =>
      do df_raw <- fetch_data sym interval;
      do entry <- analyze_strategy sqrt network_up df_raw sym;
      do tail <- monitor rest interval (<[sym := entry]> stock_cache);
      ret (fst tail, render_column sym (snd <$> entry) :: snd tail)
  end.

(** Lines 116-158: one pass; [None] is the [KeyError] of line 137. *)
Definition refresh (symbols : list string) (interval : string)
    : M (option Page) :=
  do first <- monitor symbols interval ∅;
  ret (match charts symbols (fst first) with
       | Some cs => Some (mkPage (snd first) cs)
       | None => None
       end).

(** [n] passes: each [st.rerun()] runs the script again on the same
    session. *)
Fixpoint passes (n : nat) (symbols : list string) (interval : string) : M unit :=
  match n with
  | O => ret tt
  | S n' => run refresh symbols interval; passes n' symbols interval
  end.

(** What [fetch_data] hands to [analyze_strategy]. *)
Definition fetched (ticker interval : string) : option (list Bar) :=
  match yf_download ticker interval with
  | Some (b :: data) => Some (b :: data)
  | _ => None
  end.

(** The key a run on this frame wants stored, if any. *)
Definition pending_key (df : option (list Bar)) (sym : string) : option string :=
  match df with
  | None => None
  | Some l =>
      if (length l <? 35)%nat then None
      else match verdict_of sqrt l with
           | Some v => if has_trigger v then Some (alert_key sym (msg v)) else None
           | None => None
           end
  end.

(** Every listed symbol whose frame wants a key stored has that key
    stored. *)
Definition settled (symbols : list string) (interval : string) (w : World)
    : Prop :=
  ∀ s key, s ∈ symbols →
           pending_key (fetched s interval) s = Some key →
           last_alerts w !! s = Some key.

End Script.

(** The script from its first line, on the session the last run left. *)
Definition script (sqrt : Qc → Qc) (network_up : nat → bool)
    (yf_download : string → string → option (list Bar))
    (secrets : gmap string (gmap string string))
    (symbols : list string) (interval : string)
    (session : option (gmap string string)) (log : list (TgText * bool))
    : option (result (option Page) * World) :=
  match read_secrets secrets with
  | Halt => None
  | Configured _ _ =>
      Some (refresh sqrt network_up yf_download symbols interval
              (mkWorld (init_session session) log))
  end.

(** * Properties *)

(** ** Comparisons *)

Lemma Qclt_bool_iff (x y : Qc) : Qclt_bool x y = true ↔ (x < y)%Qc.
Proof. unfold Qclt_bool, Qclt, Qlt. apply Z.ltb_lt. Qed.

Lemma Qcle_bool_iff (x y : Qc) : Qcle_bool x y = true ↔ (x <= y)%Qc.
Proof. unfold Qcle_bool, Qcle. apply Qle_bool_iff. Qed.

Lemma Qcle_bool_false_iff (x y : Qc) : Qcle_bool x y = false ↔ ¬ (x <= y)%Qc.
Proof.
  rewrite <- Qcle_bool_iff. destruct (Qcle_bool x y); split; congruence.
Qed.

Lemma Qclt_bool_false_iff (x y : Qc) : Qclt_bool x y = false ↔ ¬ (x < y)%Qc.
Proof.
  rewrite <- Qclt_bool_iff. destruct (Qclt_bool x y); split; congruence.
Qed.

Lemma cell_lt_iff (a b : cell) : cell_lt a b = true ↔ cell_Lt a b.
Proof.
  destruct a, b; simpl; try apply Qclt_bool_iff; split; (congruence || tauto).
Qed.

Lemma cell_lt_false_iff (a b : cell) : cell_lt a b = false ↔ ¬ cell_Lt a b.
Proof.
  rewrite <- cell_lt_iff. destruct (cell_lt a b); split; congruence.
Qed.

(** ** Shapes of the columns *)

Lemma length_rolling w agg xs : length (rolling w agg xs) = length xs.
Proof. unfold rolling. by rewrite length_fmap, length_seq. Qed.

Lemma length_ewm_from a y xs : length (ewm_from a y xs) = length xs.
Proof. revert y. induction xs as [|x xs IH]; intros y; simpl; [done|]. by rewrite IH. Qed.

Lemma length_ewm_mean span xs : length (ewm_mean span xs) = length xs.
Proof. destruct xs; simpl; [done|]. by rewrite length_ewm_from. Qed.

Lemma length_zap {A B} (fs : list (A → B)) (xs : list A) :
  length fs = length xs → length (zap fs xs) = length xs.
Proof. intros H. unfold zap. rewrite length_zip_with. lia. Qed.

Lemma length_zip_same {A B C} (f : A → B → C) (xs : list A) (ys : list B) n :
  length xs = n → length ys = n → length (zip_with f xs ys) = n.
Proof. intros H1 H2. rewrite length_zip_with. lia. Qed.

Lemma zap_lookup {A B} (fs : list (A → B)) (xs : list A) i y :
  zap fs xs !! i = Some y ↔ ∃ f x, fs !! i = Some f ∧ xs !! i = Some x ∧ y = f x.
Proof.
  unfold zap. rewrite lookup_zip_with_Some. split.
  - intros (f & x & -> & ? & ?). eauto.
  - intros (f & x & ? & ? & ->). eauto.
Qed.

Section Shapes.
Variable sqrt : Qc → Qc.

Lemma length_enrich (df : list Bar) : length (enrich sqrt df) = length df.
Proof.
  unfold enrich.
  repeat first
    [ rewrite length_zap
    | rewrite length_fmap
    | rewrite length_rolling
    | rewrite length_ewm_mean
    | rewrite (length_zip_same _ _ _ (length df)) ];
  reflexivity.
Qed.

End Shapes.

(** ** Rows of the enriched frame *)

Section Rows.
Variable sqrt : Qc → Qc.

Lemma enrich_lookup (df : list Bar) (i : nat) (r : Row) :
  enrich sqrt df !! i = Some r →
  let close := Close <$> df in
  let macd := zip_with Qcminus (ewm_mean 12 close) (ewm_mean 26 close) in
  df !! i = Some (bar r) ∧
  rolling 20 mean close !! i = Some (BB_Mid r) ∧
  (∃ s, rolling 20 (std sqrt) close !! i = Some s ∧
        BB_Upper r = cell_add (BB_Mid r) (cell_mul s (Some (num 2))) ∧
        BB_Lower r = cell_sub (BB_Mid r) (cell_mul s (Some (num 2)))) ∧
  macd !! i = Some (MACD r) ∧
  ewm_mean 9 macd !! i = Some (Signal_Line r) ∧
  MACD_Hist r = (MACD r - Signal_Line r)%Qc ∧
  ewm_mean 9 close !! i = Some (EMA_F r) ∧
  ewm_mean 21 close !! i = Some (EMA_S r).
Proof.
  unfold enrich. intros H.
  repeat (apply zap_lookup in H; destruct H as (? & ? & H & ? & ->)).
  rewrite list_lookup_fmap in H.
  destruct (df !! i) as [b|] eqn:Hb; [|discriminate]. simpl in H.
  injection H as <-. simpl.
  repeat match goal with
  | H : zip_with _ _ _ !! _ = Some _ |- _ =>
      apply lookup_zip_with_Some in H; destruct H as (? & ? & -> & ? & ?)
  end.
  repeat match goal with
  | H : (_ <$> _) !! _ = Some _ |- _ =>
      rewrite list_lookup_fmap in H
  end.
  repeat match goal with
  | H1 : ?l !! i = Some ?a, H2 : ?l !! i = Some ?b |- _ =>
      assert (a = b) by congruence; subst; clear H2
  end.
  destruct (rolling 20 (std sqrt) (Close <$> df) !! i) as [s|] eqn:Hs;
    [|discriminate].
  repeat match goal with
  | H : _ <$> Some _ = Some _ |- _ => simpl in H; injection H as <-
  end.
  repeat split; try done.
  - eauto.
  - apply lookup_zip_with_Some. eauto 10.
Qed.

End Rows.

(** ** One run of [analyze_strategy] *)

Lemma iloc_neg_Ok {A} (df : list A) (k : nat) (w : World) :
  (1 ≤ k ≤ length df)%nat →
  ∃ r, df !! (length df - k)%nat = Some r ∧ iloc_neg df k w = (Ok r, w).
Proof.
  intros [H1 H2]. unfold iloc_neg.
  destruct (lookup_lt_is_Some_2 df (length df - k)%nat) as [r Hr]; [lia|].
  exists r. split; [done|].
  destruct (Nat.leb_spec k (length df)); [|lia]. by rewrite Hr.
Qed.

Lemma send_telegram_msg_Ok network_up (text : TgText) (w : World) :
  send_telegram_msg network_up text w =
  (Ok tt, mkWorld (last_alerts w)
                  (posted w ++ [(text, network_up (length (posted w)))])).
Proof.
  unfold send_telegram_msg, try_except, requests_post.
  by destruct (network_up (length (posted w))).
Qed.

Section Run.
Variable sqrt : Qc → Qc.
Variable network_up : nat → bool.

Lemma analyze_strategy_short (df : option (list Bar)) (sym : string) (w : World) :
  short df → analyze_strategy sqrt network_up df sym w = (Ok None, w).
Proof.
  destruct df as [l|]; simpl; intros H; [|done].
  destruct (Nat.ltb_spec (length l) 35); [done|lia].
Qed.

Lemma analyze_strategy_run (df : list Bar) (sym : string) (w : World) :
  (35 ≤ length df)%nat →
  ∃ prev last,
    enrich sqrt df !! (length df - 2)%nat = Some prev ∧
    enrich sqrt df !! (length df - 1)%nat = Some last ∧
    let curr_p := Close (bar last) in
    let v := bollinger curr_p last (crossover prev last) in
    let text := tg_text sym (enrich sqrt df) last curr_p (msg v) in
    verdict_of sqrt df = Some v ∧
    analyze_strategy sqrt network_up (Some df) sym w =
      (Ok (Some (enrich sqrt df, make_info curr_p last v)),
       if fires sym v w then notified network_up sym v text w else w).
Proof.
  intros Hlen.
  pose proof (length_enrich sqrt df) as Hl.
  destruct (iloc_neg_Ok (enrich sqrt df) 1 w) as (last & Hlast & Hi1); [lia|].
  destruct (iloc_neg_Ok (enrich sqrt df) 2 w) as (prev & Hprev & Hi2); [lia|].
  exists prev, last. rewrite Hl in Hlast, Hprev.
  repeat split; try done.
  - unfold verdict_of. rewrite Hl, Hlast. simpl. by rewrite Hprev.
  - unfold analyze_strategy.
    destruct (Nat.ltb_spec (length df) 35); [lia|].
    unfold bind at 1. rewrite Hi1.
    unfold bind at 1. rewrite Hi2.
    unfold bind at 1. unfold alerts_get at 1.
    unfold fires.
    destruct (has_trigger _ && negb _); [|done].
    unfold bind. rewrite send_telegram_msg_Ok. done.
Qed.

End Run.

(** ** The decision chain *)

Lemma crossover_cases (prev last : Row) :
  let bull := (EMA_F prev <= EMA_S prev ∧ EMA_S last < EMA_F last)%Qc in
  let bear := (EMA_S prev <= EMA_F prev ∧ EMA_F last < EMA_S last)%Qc in
  (bull → (0 < MACD_Hist last)%Qc →
     crossover prev last = mkVerdict Label.strong_buy Label.critical true) ∧
  (bull → ¬ (0 < MACD_Hist last)%Qc →
     crossover prev last = mkVerdict Label.golden_cross Label.warning true) ∧
  (¬ bull → bear →
     crossover prev last = mkVerdict Label.death_cross Label.critical true) ∧
  (¬ bull → ¬ bear →
     crossover prev last = mkVerdict Label.trend_stable Label.info false).
Proof.
  simpl. unfold crossover.
  destruct (Qcle_bool (EMA_F prev) (EMA_S prev)) eqn:E1;
  destruct (Qclt_bool (EMA_S last) (EMA_F last)) eqn:E2;
  destruct (Qcle_bool (EMA_S prev) (EMA_F prev)) eqn:E3;
  destruct (Qclt_bool (EMA_F last) (EMA_S last)) eqn:E4;
  destruct (Qclt_bool 0%Qc (MACD_Hist last)) eqn:E5; simpl;
  repeat match goal with
  | H : Qcle_bool _ _ = true |- _ => apply Qcle_bool_iff in H
  | H : Qcle_bool _ _ = false |- _ =>
      apply Qcle_bool_false_iff in H
  | H : Qclt_bool _ _ = true |- _ => apply Qclt_bool_iff in H
  | H : Qclt_bool _ _ = false |- _ => apply Qclt_bool_false_iff in H
  end;
  repeat split; intros; try reflexivity; tauto.
Qed.

Lemma bollinger_has_trigger (p : Qc) (last : Row) (v : Verdict) :
  has_trigger (bollinger p last v) = has_trigger v.
Proof. unfold bollinger. by repeat case_match. Qed.

Lemma bollinger_cases (p : Qc) (last : Row) (v : Verdict) :
  let up := cell_Lt (BB_Upper last) (Some p) in
  let down := cell_Lt (Some p) (BB_Lower last) in
  (up → bollinger p last v =
          mkVerdict Label.touching_upper Label.warning (has_trigger v)) ∧
  (¬ up → down → bollinger p last v =
          mkVerdict Label.touching_lower Label.warning (has_trigger v)) ∧
  (¬ up → ¬ down → bollinger p last v = v).
Proof.
  simpl. unfold bollinger.
  destruct (cell_lt (BB_Upper last) (Some p)) eqn:E1;
  destruct (cell_lt (Some p) (BB_Lower last)) eqn:E2;
  repeat match goal with
  | H : cell_lt _ _ = true |- _ => apply cell_lt_iff in H
  | H : cell_lt _ _ = false |- _ => apply cell_lt_false_iff in H
  end;
  repeat split; intros; try reflexivity; tauto.
Qed.

(** Goals on concrete numbers, by evaluation of the boolean tests. *)
Ltac by_eval :=
  first
    [ apply Qclt_bool_iff
    | apply Qcle_bool_iff
    | apply Qcle_bool_false_iff
    | apply cell_lt_iff
    | apply Qclt_bool_false_iff
    | apply cell_lt_false_iff
    | idtac ];
  vm_compute; first [ reflexivity | discriminate | lia ].

(** The scenarios of the specification, on rows given by their numbers. *)

Example scenario_strong_buy :
  crossover (row_of (num 50) (num 100) 0%Qc 0%Qc (num 10) (num 11))
            (row_of (num 50) (num 100) 0%Qc (num 5 / num 10)%Qc (num 12) (num 11))
  = mkVerdict Label.strong_buy Label.critical true.
Proof. vm_compute. reflexivity. Qed.

Example scenario_golden_cross :
  crossover (row_of (num 50) (num 100) 0%Qc 0%Qc (num 10) (num 11))
            (row_of (num 50) (num 100) 0%Qc (- (num 3 / num 10))%Qc (num 12) (num 11))
  = mkVerdict Label.golden_cross Label.warning true.
Proof. vm_compute. reflexivity. Qed.

Example scenario_breakout_alone :
  let prev := row_of (num 99) (num 100) (num 90) 0%Qc (num 12) (num 11) in
  let last := row_of (num 105) (num 100) (num 90) 0%Qc (num 12) (num 11) in
  bollinger (num 105) last (crossover prev last)
  = mkVerdict Label.touching_upper Label.warning false.
Proof. vm_compute. reflexivity. Qed.

(** ** The sample frames *)

Lemma last_two_comparisons_rows (df : list Bar) (prev last : Row) (bs : list bool) :
  enrich sqrt_floor df !! (length df - 2)%nat = Some prev →
  enrich sqrt_floor df !! (length df - 1)%nat = Some last →
  last_two_comparisons df = Some bs →
  comparisons prev last = bs.
Proof.
  intros Hp Hl. unfold last_two_comparisons. rewrite Hl. simpl. rewrite Hp. simpl.
  congruence.
Qed.

Lemma strong_buy_comparisons :
  last_two_comparisons strong_buy_series
  = Some [true; true; true; false; false; false; false].
Proof. vm_compute. reflexivity. Qed.

Lemma golden_comparisons :
  last_two_comparisons golden_series
  = Some [true; true; false; false; false; false; false].
Proof. vm_compute. reflexivity. Qed.

Lemma death_comparisons :
  last_two_comparisons death_series
  = Some [false; false; true; true; true; false; false].
Proof. vm_compute. reflexivity. Qed.

Lemma breakout_comparisons :
  last_two_comparisons breakout_series
  = Some [false; true; true; true; false; true; false].
Proof. vm_compute. reflexivity. Qed.

Lemma jump_comparisons :
  last_two_comparisons jump_series
  = Some [true; true; true; true; false; true; false].
Proof. vm_compute. reflexivity. Qed.

Lemma flat_comparisons :
  last_two_comparisons flat_series
  = Some [true; false; false; true; false; false; false].
Proof. vm_compute. reflexivity. Qed.

(** From the comparisons of a sample frame to the facts on its rows. *)
Ltac sample_facts Hfact Hprev Hlast :=
  let H := fresh "H" in
  pose proof (last_two_comparisons_rows _ _ _ _ Hprev Hlast Hfact) as H;
  unfold comparisons in H;
  injection H as ? ? ? ? ? ? ?;
  repeat match goal with
  | H : Qcle_bool _ _ = true |- _ => apply Qcle_bool_iff in H
  | H : Qcle_bool _ _ = false |- _ => apply Qcle_bool_false_iff in H
  | H : Qclt_bool _ _ = true |- _ => apply Qclt_bool_iff in H
  | H : Qclt_bool _ _ = false |- _ => apply Qclt_bool_false_iff in H
  | H : cell_lt _ _ = true |- _ => apply cell_lt_iff in H
  | H : cell_lt _ _ = false |- _ => apply cell_lt_false_iff in H
  end.

Lemma iloc_neg_lookup {A} (df : list A) (k : nat) (w w' : World) (r : A) :
  iloc_neg df k w = (Ok r, w') → df !! (length df - k)%nat = Some r.
Proof.
  unfold iloc_neg. destruct (k <=? length df)%nat; [|discriminate].
  destruct (df !! (length df - k)%nat); [|discriminate].
  unfold ret. congruence.
Qed.

(** ** The claims *)

(** C1.  A missing frame, or a frame of fewer than 35 bars, gives no result
    whatever it holds: [analyze_strategy] returns [(None, None)] without
    classifying, the request log is unchanged (nothing is sent) and so is
    [last_alerts]. *)
Theorem short_frame_gives_no_result (sqrt : Qc → Qc) (network_up : nat → bool)
    (df : option (list Bar)) (sym : string) (w : World) :
  short df →
  analyze_strategy sqrt network_up df sym w = (Ok None, w).
Proof.
  destruct df as [l|]; simpl; intros H; [|done].
  destruct (Nat.ltb_spec (length l) 35); [done|lia].
Qed.

Lemma short_frame_gives_no_result_witness :
  short (Some short_series) ∧
  analyze_strategy sqrt_floor always_down (Some short_series) "AAPL" empty_world
  = (Ok None, empty_world).
Proof.
  assert (H : short (Some short_series)) by (simpl; lia).
  split; [exact H|].
  exact (short_frame_gives_no_result sqrt_floor always_down
           (Some short_series) "AAPL" empty_world H).
Defined.

(** C2.  On a frame of at least 35 bars the crossover step reads the last
    two rows only: a bullish cross (prev.EMA_F <= prev.EMA_S and
    last.EMA_F > last.EMA_S) gives "strong buy", critical, triggered when
    last.MACD_Hist > 0 and "golden cross", warning, triggered otherwise; else
    a bearish cross (prev.EMA_F >= prev.EMA_S and last.EMA_F < last.EMA_S)
    gives "death cross", critical, triggered; else "trend stable", info, not
    triggered. *)
Theorem crossover_reads_last_two_rows (sqrt : Qc → Qc) (df : list Bar) (w : World) :
  (35 ≤ length df)%nat →
  ∃ prev last,
    iloc_neg (enrich sqrt df) 2 w = (Ok prev, w) ∧
    iloc_neg (enrich sqrt df) 1 w = (Ok last, w) ∧
    let bull := (EMA_F prev <= EMA_S prev ∧ EMA_S last < EMA_F last)%Qc in
    let bear := (EMA_S prev <= EMA_F prev ∧ EMA_F last < EMA_S last)%Qc in
    (bull → (0 < MACD_Hist last)%Qc →
       crossover prev last = mkVerdict Label.strong_buy Label.critical true) ∧
    (bull → ¬ (0 < MACD_Hist last)%Qc →
       crossover prev last = mkVerdict Label.golden_cross Label.warning true) ∧
    (¬ bull → bear →
       crossover prev last = mkVerdict Label.death_cross Label.critical true) ∧
    (¬ bull → ¬ bear →
       crossover prev last = mkVerdict Label.trend_stable Label.info false).
Proof.
  intros Hlen.
  pose proof (length_enrich sqrt df) as Hl.
  destruct (iloc_neg_Ok (enrich sqrt df) 2 w) as (prev & _ & H2); [lia|].
  destruct (iloc_neg_Ok (enrich sqrt df) 1 w) as (last & _ & H1); [lia|].
  exists prev, last. split; [done|]. split; [done|].
  apply crossover_cases.
Qed.

Lemma crossover_reads_last_two_rows_witness :
  (35 ≤ length strong_buy_series)%nat ∧
  ∃ prev last,
    iloc_neg (enrich sqrt_floor strong_buy_series) 2 empty_world
      = (Ok prev, empty_world) ∧
    iloc_neg (enrich sqrt_floor strong_buy_series) 1 empty_world
      = (Ok last, empty_world) ∧
    crossover prev last = mkVerdict Label.strong_buy Label.critical true.
Proof.
  assert (H : (35 ≤ length strong_buy_series)%nat) by (simpl; lia).
  split; [exact H|].
  destruct (crossover_reads_last_two_rows sqrt_floor strong_buy_series
              empty_world H) as (prev & last & H2 & H1 & Hs & _).
  exists prev, last. split; [exact H2|]. split; [exact H1|].
  apply iloc_neg_lookup in H2, H1. rewrite length_enrich in H2, H1.
  sample_facts strong_buy_comparisons H2 H1.
  apply Hs; [split|]; assumption.
Defined.

(** C3.  The Bollinger step (close above the upper band, or else below the
    lower band) replaces the message and the severity of the crossover step
    and leaves [has_trigger] as it was.  A breakout without a crossover is
    displayed with severity warning and nothing is sent, whatever the state.
    A breakout together with a crossover stays triggered, and the
    notification logic runs on the breakout message: its key is the one
    compared with the stored key, stored and sent. *)
Theorem bollinger_overrides_display_only (sqrt : Qc → Qc) (network_up : nat → bool)
    (df : list Bar) (sym : string) (w : World) :
  (35 ≤ length df)%nat →
  ∃ prev last i w',
    enrich sqrt df !! (length df - 2)%nat = Some prev ∧
    enrich sqrt df !! (length df - 1)%nat = Some last ∧
    analyze_strategy sqrt network_up (Some df) sym w
      = (Ok (Some (enrich sqrt df, i)), w') ∧
    let p := Close (bar last) in
    let c := crossover prev last in
    let up := cell_Lt (BB_Upper last) (Some p) in
    let down := cell_Lt (Some p) (BB_Lower last) in
    let key := alert_key sym (info_msg i) in
    has_trigger (bollinger p last c) = has_trigger c ∧
    (up → info_msg i = Label.touching_upper ∧ info_alert_level i = Label.warning) ∧
    (¬ up → down →
       info_msg i = Label.touching_lower ∧ info_alert_level i = Label.warning) ∧
    (¬ up → ¬ down → info_msg i = msg c ∧ info_alert_level i = alert_level c) ∧
    (up ∨ down → has_trigger c = false → w' = w) ∧
    (up ∨ down → has_trigger c = true → last_alerts w !! sym ≠ Some key →
       last_alerts w' = <[sym := key]> (last_alerts w) ∧
       ∃ text, tg_msg text = info_msg i ∧
               posted w' = (posted w ++ [(text, network_up (length (posted w)))])%list) ∧
    (up ∨ down → has_trigger c = true → last_alerts w !! sym = Some key →
       w' = w).
Proof.
  intros Hlen.
  destruct (analyze_strategy_run sqrt network_up df sym w Hlen)
    as (prev & last & Hprev & Hlast & _ & Hrun).
  exists prev, last. eexists. eexists.
  split; [exact Hprev|]. split; [exact Hlast|]. split; [exact Hrun|].
  cbv zeta. simpl info_msg. simpl info_alert_level.
  set (p := Close (bar last)). set (c := crossover prev last).
  pose proof (bollinger_cases p last c) as (Hup & Hdown & Hnone).
  pose proof (bollinger_has_trigger p last c) as Ht.
  cbv zeta in Hup, Hdown, Hnone.
  split; [exact Ht|].
  split; [intros U; by rewrite (Hup U)|].
  split; [intros U D; by rewrite (Hdown U D)|].
  split; [intros U D; by rewrite (Hnone U D)|].
  unfold fires. rewrite Ht.
  split; [intros _ ->; done|].
  split.
  - intros _ -> Hne. rewrite bool_decide_eq_false_2 by done. simpl.
    split; [done|]. eexists. split; [|reflexivity]. done.
  - intros _ -> He. rewrite bool_decide_eq_true_2 by done. done.
Qed.

Lemma bollinger_overrides_display_only_witness :
  (35 ≤ length jump_series)%nat ∧
  ∃ i w',
    analyze_strategy sqrt_floor always_up (Some jump_series) "AAPL" empty_world
      = (Ok (Some (enrich sqrt_floor jump_series, i)), w') ∧
    info_msg i = Label.touching_upper ∧
    last_alerts w' = <["AAPL" := alert_key "AAPL" Label.touching_upper]> ∅.
Proof.
  assert (H : (35 ≤ length jump_series)%nat) by (simpl; lia).
  split; [exact H|].
  destruct (bollinger_overrides_display_only sqrt_floor always_up jump_series
              "AAPL" empty_world H)
    as (prev & last & i & w' & Hprev & Hlast & Hrun & _ & Hup & _ & _ & _ & Hfire & _).
  exists i, w'. split; [exact Hrun|].
  sample_facts jump_comparisons Hprev Hlast.
  destruct Hup as [Hm _]; [assumption|]. split; [exact Hm|].
  rewrite Hm in Hfire.
  destruct Hfire as [Hs _].
  - by left.
  - pose proof (crossover_cases prev last) as (Hsb & _).
    cbv zeta in Hsb. rewrite Hsb; [reflexivity | by split | assumption].
  - by_eval.
  - exact Hs.
Defined.

(** ** The alert state *)

Lemma alert_key_inj (sym m1 m2 : string) :
  alert_key sym m1 = alert_key sym m2 → m1 = m2.
Proof.
  unfold alert_key. induction sym as [|a sym IH]; simpl; intros H.
  - by injection H.
  - injection H as H. by apply IH.
Qed.

Lemma fires_notified (network_up : nat → bool) (sym : string) (v : Verdict)
    (text : TgText) (w : World) :
  fires sym v (notified network_up sym v text w) = false.
Proof.
  unfold fires, notified. simpl. rewrite lookup_insert_eq.
  rewrite bool_decide_eq_true_2 by done. by destruct (has_trigger v).
Qed.

Lemma fires_true (sym : string) (v : Verdict) (w : World) :
  fires sym v w = true ↔
  has_trigger v = true ∧ last_alerts w !! sym ≠ Some (alert_key sym (msg v)).
Proof.
  unfold fires. rewrite andb_true_iff, negb_true_iff, bool_decide_eq_false.
  done.
Qed.

Lemma verdict_of_sample (df : list Bar) (bs : list bool) :
  (35 ≤ length df)%nat →
  last_two_comparisons df = Some bs →
  ∃ prev last,
    comparisons prev last = bs ∧
    verdict_of sqrt_floor df
    = Some (bollinger (Close (bar last)) last (crossover prev last)).
Proof.
  intros Hlen Hbs.
  destruct (analyze_strategy_run sqrt_floor always_up df "" empty_world Hlen)
    as (prev & last & Hprev & Hlast & Hv & _).
  exists prev, last. split; [|exact Hv].
  by apply (last_two_comparisons_rows df).
Qed.

(** The verdict of a sample frame, from its comparisons. *)
Ltac sample_verdict Hfact :=
  let prev := fresh "prev" in
  let last := fresh "last" in
  let Hc := fresh "Hc" in
  let Hv := fresh "Hv" in
  let Hlen := fresh "Hlen" in
  match type of Hfact with
  | last_two_comparisons ?df = _ =>
      assert (Hlen : (35 ≤ length df)%nat) by (simpl; lia);
      destruct (verdict_of_sample _ _ Hlen Hfact) as (prev & last & Hc & Hv)
  end;
  rewrite Hv; f_equal;
  unfold comparisons in Hc; injection Hc as ? ? ? ? ? ? ?;
  unfold bollinger, crossover; unfold cell_lt in *;
  repeat match goal with H : _ = _ |- _ => rewrite H; clear H end;
  reflexivity.

Lemma strong_buy_verdict :
  verdict_of sqrt_floor strong_buy_series
  = Some (mkVerdict Label.strong_buy Label.critical true).
Proof. pose proof strong_buy_comparisons as Hfact. sample_verdict Hfact. Qed.

Lemma golden_verdict :
  verdict_of sqrt_floor golden_series
  = Some (mkVerdict Label.golden_cross Label.warning true).
Proof. pose proof golden_comparisons as Hfact. sample_verdict Hfact. Qed.

Lemma death_verdict :
  verdict_of sqrt_floor death_series
  = Some (mkVerdict Label.death_cross Label.critical true).
Proof. pose proof death_comparisons as Hfact. sample_verdict Hfact. Qed.

Lemma breakout_verdict :
  verdict_of sqrt_floor breakout_series
  = Some (mkVerdict Label.touching_upper Label.warning false).
Proof. pose proof breakout_comparisons as Hfact. sample_verdict Hfact. Qed.

Lemma jump_verdict :
  verdict_of sqrt_floor jump_series
  = Some (mkVerdict Label.touching_upper Label.warning true).
Proof. pose proof jump_comparisons as Hfact. sample_verdict Hfact. Qed.

Lemma flat_verdict :
  verdict_of sqrt_floor flat_series
  = Some (mkVerdict Label.trend_stable Label.info false).
Proof. pose proof flat_comparisons as Hfact. sample_verdict Hfact. Qed.

Section Alerts.
Variable sqrt : Qc → Qc.
Variable network_up : nat → bool.

(** One run on a long frame, by the verdict of the frame. *)
Lemma analyze_strategy_world (df : list Bar) (sym : string) (w : World) :
  (35 ≤ length df)%nat →
  ∃ v i text,
    verdict_of sqrt df = Some v ∧
    info_msg i = msg v ∧ info_alert_level i = alert_level v ∧
    tg_msg text = msg v ∧ tg_sym text = sym ∧
    analyze_strategy sqrt network_up (Some df) sym w =
      (Ok (Some (enrich sqrt df, i)),
       if fires sym v w then notified network_up sym v text w else w).
Proof.
  intros Hlen.
  destruct (analyze_strategy_run sqrt network_up df sym w Hlen)
    as (prev & last & _ & _ & Hv & Hrun).
  cbv zeta in Hv, Hrun.
  eexists _, _, _. split; [exact Hv|].
  split; [|split; [|split; [|split; [|exact Hrun]]]]; reflexivity.
Qed.

End Alerts.

(** C4.  De-duplication per key.  Two runs in a row on the same frame and
    symbol send at most one notification: the second run finds the key of a
    triggering verdict stored and sends nothing.  A later run whose frame
    gives another triggering message for the symbol sends again. *)
Theorem dedup_per_key (sqrt : Qc → Qc) (network_up : nat → bool) :
  (∀ (df : option (list Bar)) (sym : string) (w : World),
     let w1 := snd (analyze_strategy sqrt network_up df sym w) in
     let w2 := snd (analyze_strategy sqrt network_up df sym w1) in
     w2 = w1 ∧
     (length (posted w2) ≤ length (posted w) + 1)%nat ∧
     ∀ l v, df = Some l → (35 ≤ length l)%nat →
            verdict_of sqrt l = Some v → has_trigger v = true →
            last_alerts w1 !! sym = Some (alert_key sym (msg v))) ∧
  (∀ (df1 df2 : list Bar) (sym : string) (w : World) (v1 v2 : Verdict),
     (35 ≤ length df1)%nat → (35 ≤ length df2)%nat →
     verdict_of sqrt df1 = Some v1 → verdict_of sqrt df2 = Some v2 →
     has_trigger v1 = true → has_trigger v2 = true →
     msg v1 ≠ msg v2 →
     let w1 := snd (analyze_strategy sqrt network_up (Some df1) sym w) in
     let w2 := snd (analyze_strategy sqrt network_up (Some df2) sym w1) in
     ∃ text,
       tg_msg text = msg v2 ∧
       posted w2 = (posted w1 ++ [(text, network_up (length (posted w1)))])%list ∧
       last_alerts w2 !! sym = Some (alert_key sym (msg v2))).
Proof.
  split.
  - intros df sym w.
    assert (Hcases : short df ∨ ∃ l, df = Some l ∧ (35 ≤ length l)%nat).
    { destruct df as [l|]; [|by left].
      destruct (le_lt_dec 35 (length l)); [right; eauto|by left]. }
    destruct Hcases as [Hs|(l & -> & Hlen)].
    + cbv zeta. rewrite !(analyze_strategy_short _ _ _ _ _ Hs). simpl.
      split; [done|]. split; [lia|].
      intros l v -> Hlen. simpl in Hs. lia.
    + destruct (analyze_strategy_world sqrt network_up l sym w Hlen)
        as (v & i & text & Hv & _ & _ & _ & _ & Hrun).
      cbv zeta. rewrite Hrun. cbn [snd].
      destruct (fires sym v w) eqn:Hf.
      * destruct (analyze_strategy_world sqrt network_up l sym
                    (notified network_up sym v text w) Hlen)
          as (v' & i' & text' & Hv' & _ & _ & _ & _ & Hrun').
        assert (v' = v) by congruence. subst v'.
        rewrite Hrun'. cbn [snd]. rewrite fires_notified.
        split; [done|]. split.
        { unfold notified. simpl. rewrite length_app. simpl. lia. }
        intros l' v' [= <-] _ Hv'' _.
        assert (v' = v) by congruence. subst v'.
        unfold notified. simpl. by rewrite lookup_insert_eq.
      * rewrite Hrun. cbn [snd].
        split; [done|]. split; [lia|].
        intros l' v' [= <-] _ Hv'' Ht.
        assert (v' = v) by congruence. subst v'.
        unfold fires in Hf. rewrite Ht in Hf. simpl in Hf.
        apply negb_false_iff, bool_decide_eq_true in Hf. exact Hf.
  - intros df1 df2 sym w v1 v2 Hl1 Hl2 Hv1 Hv2 Ht1 Ht2 Hne.
    destruct (analyze_strategy_world sqrt network_up df1 sym w Hl1)
      as (v & i & text & Hv & _ & _ & _ & _ & Hrun).
    assert (v = v1) by congruence. subst v.
    cbv zeta. rewrite Hrun. cbn [snd].
    set (w1 := if fires sym v1 w then notified network_up sym v1 text w else w).
    assert (Hk : last_alerts w1 !! sym = Some (alert_key sym (msg v1))).
    { subst w1. destruct (fires sym v1 w) eqn:Hf.
      - unfold notified. simpl. by rewrite lookup_insert_eq.
      - unfold fires in Hf. rewrite Ht1 in Hf. simpl in Hf.
        apply negb_false_iff, bool_decide_eq_true in Hf. exact Hf. }
    destruct (analyze_strategy_world sqrt network_up df2 sym w1 Hl2)
      as (v & i2 & text2 & Hv' & _ & _ & Hm & _ & Hrun2).
    assert (v = v2) by congruence. subst v.
    rewrite Hrun2. cbn [snd].
    assert (Hf2 : fires sym v2 w1 = true).
    { apply fires_true. split; [done|]. rewrite Hk. intros [= He].
      apply alert_key_inj in He. done. }
    rewrite Hf2. exists text2. split; [done|].
    unfold notified. simpl. split; [done|]. by rewrite lookup_insert_eq.
Qed.

Lemma dedup_per_key_witness :
  ((35 ≤ length strong_buy_series)%nat ∧ (35 ≤ length death_series)%nat ∧
   verdict_of sqrt_floor strong_buy_series
     = Some (mkVerdict Label.strong_buy Label.critical true) ∧
   verdict_of sqrt_floor death_series
     = Some (mkVerdict Label.death_cross Label.critical true) ∧
   Label.strong_buy ≠ Label.death_cross) ∧
  let w1 := snd (analyze_strategy sqrt_floor always_up
                   (Some strong_buy_series) "AAPL" empty_world) in
  let w2 := snd (analyze_strategy sqrt_floor always_up
                   (Some death_series) "AAPL" w1) in
  ∃ text,
    tg_msg text = Label.death_cross ∧
    posted w2 = (posted w1 ++ [(text, true)])%list ∧
    last_alerts w2 !! "AAPL" = Some (alert_key "AAPL" Label.death_cross).
Proof.
  assert (H1 : (35 ≤ length strong_buy_series)%nat) by (simpl; lia).
  assert (H2 : (35 ≤ length death_series)%nat) by (simpl; lia).
  assert (Hne : Label.strong_buy ≠ Label.death_cross) by (vm_compute; discriminate).
  split; [auto using strong_buy_verdict, death_verdict|].
  exact (proj2 (dedup_per_key sqrt_floor always_up)
           strong_buy_series death_series "AAPL" empty_world _ _
           H1 H2 strong_buy_verdict death_verdict eq_refl eq_refl Hne).
Defined.

(** C5, as the specification states it, fails: the key the program stores
    for "AAPL" after the jump frame is not "AAPL" followed by "::" and the
    message. *)
Lemma alert_key_is_not_double_colon :
  ∃ i w',
    analyze_strategy sqrt_floor always_up (Some jump_series) "AAPL" empty_world
      = (Ok (Some (enrich sqrt_floor jump_series, i)), w') ∧
    info_msg i = Label.touching_upper ∧
    last_alerts w' !! "AAPL" = Some ("AAPL_" ++ info_msg i) ∧
    last_alerts w' !! "AAPL" ≠ Some ("AAPL" ++ "::" ++ info_msg i).
Proof.
  assert (Hlen : (35 ≤ length jump_series)%nat) by (simpl; lia).
  destruct (analyze_strategy_world sqrt_floor always_up jump_series "AAPL"
              empty_world Hlen)
    as (v & i & text & Hv & Hi & _ & _ & _ & Hrun).
  rewrite jump_verdict in Hv. injection Hv as <-.
  simpl in Hi. exists i. eexists. split; [exact Hrun|].
  split; [exact Hi|]. rewrite Hi.
  split; vm_compute; [reflexivity | discriminate].
Qed.

(** C5, amended.  The key is the symbol, an underscore and the final
    message (the one returned, after the Bollinger step): it is the key
    compared with the stored one, and the key stored when the run
    notifies. *)
Theorem alert_key_is_symbol_underscore_message (sqrt : Qc → Qc)
    (network_up : nat → bool) (df : list Bar) (sym : string) (w : World) :
  (35 ≤ length df)%nat →
  ∃ v i w',
    verdict_of sqrt df = Some v ∧
    analyze_strategy sqrt network_up (Some df) sym w
      = (Ok (Some (enrich sqrt df, i)), w') ∧
    info_msg i = msg v ∧
    let key := sym ++ "_" ++ info_msg i in
    alert_key sym (info_msg i) = key ∧
    (has_trigger v = true → last_alerts w !! sym ≠ Some key →
       last_alerts w' = <[sym := key]> (last_alerts w) ∧
       length (posted w') = S (length (posted w))) ∧
    (has_trigger v = true → last_alerts w !! sym = Some key → w' = w) ∧
    (has_trigger v = false → w' = w).
Proof.
  intros Hlen.
  destruct (analyze_strategy_world sqrt network_up df sym w Hlen)
    as (v & i & text & Hv & Hi & _ & _ & _ & Hrun).
  exists v, i. eexists. split; [exact Hv|]. split; [exact Hrun|].
  split; [exact Hi|]. cbv zeta. rewrite Hi. split; [reflexivity|].
  fold (alert_key sym (msg v)). unfold fires.
  split; [|split].
  - intros -> Hne. rewrite bool_decide_eq_false_2 by done. simpl.
    split; [done|]. rewrite length_app. simpl. lia.
  - intros -> He. by rewrite bool_decide_eq_true_2.
  - by intros ->.
Qed.

Lemma alert_key_is_symbol_underscore_message_witness :
  (35 ≤ length golden_series)%nat ∧
  ∃ v i w',
    verdict_of sqrt_floor golden_series = Some v ∧
    analyze_strategy sqrt_floor always_up (Some golden_series) "TSLA" empty_world
      = (Ok (Some (enrich sqrt_floor golden_series, i)), w') ∧
    last_alerts w' = <["TSLA" := "TSLA_" ++ Label.golden_cross]> ∅.
Proof.
  assert (Hlen : (35 ≤ length golden_series)%nat) by (simpl; lia).
  split; [exact Hlen|].
  destruct (alert_key_is_symbol_underscore_message sqrt_floor always_up
              golden_series "TSLA" empty_world Hlen)
    as (v & i & w' & Hv & Hrun & Hi & _ & Hfire & _).
  exists v, i, w'. split; [exact Hv|]. split; [exact Hrun|].
  rewrite golden_verdict in Hv. injection Hv as <-.
  simpl in Hi. rewrite Hi in Hfire.
  destruct Hfire as [Hs _]; [reflexivity | by_eval | exact Hs].
Defined.

(** C6.  When the guard of line 90 holds and the HTTP request fails, the
    failure stays inside [send_telegram_msg]: [analyze_strategy] returns its
    result as usual and [last_alerts] holds the new key. *)
Theorem delivery_failure_is_swallowed (sqrt : Qc → Qc) (network_up : nat → bool)
    (df : list Bar) (sym : string) (w : World) (v : Verdict) :
  (35 ≤ length df)%nat →
  verdict_of sqrt df = Some v →
  has_trigger v = true →
  last_alerts w !! sym ≠ Some (alert_key sym (msg v)) →
  network_up (length (posted w)) = false →
  ∃ i text w',
    fst (requests_post network_up text w) = Raise ConnectionError ∧
    send_telegram_msg network_up text w = (Ok tt, snd (requests_post network_up text w)) ∧
    analyze_strategy sqrt network_up (Some df) sym w
      = (Ok (Some (enrich sqrt df, i)), w') ∧
    info_msg i = msg v ∧
    last_alerts w' = <[sym := alert_key sym (msg v)]> (last_alerts w) ∧
    posted w' = (posted w ++ [(text, false)])%list.
Proof.
  intros Hlen Hv Ht Hne Hdown.
  destruct (analyze_strategy_world sqrt network_up df sym w Hlen)
    as (v' & i & text & Hv' & Hi & _ & _ & _ & Hrun).
  assert (v' = v) by congruence. subst v'.
  assert (Hf : fires sym v w = true) by (by apply fires_true).
  rewrite Hf in Hrun.
  exists i, text. eexists.
  split; [|split; [|split; [exact Hrun|]]].
  - unfold requests_post. by rewrite Hdown.
  - rewrite send_telegram_msg_Ok. unfold requests_post. by rewrite Hdown.
  - unfold notified. simpl. by rewrite Hdown.
Qed.

Lemma delivery_failure_is_swallowed_witness :
  ((35 ≤ length jump_series)%nat ∧
   verdict_of sqrt_floor jump_series
     = Some (mkVerdict Label.touching_upper Label.warning true) ∧
   last_alerts empty_world !! "AAPL"
     ≠ Some (alert_key "AAPL" Label.touching_upper) ∧
   always_down (length (posted empty_world)) = false) ∧
  ∃ i text w',
    analyze_strategy sqrt_floor always_down (Some jump_series) "AAPL" empty_world
      = (Ok (Some (enrich sqrt_floor jump_series, i)), w') ∧
    last_alerts w' = <["AAPL" := alert_key "AAPL" Label.touching_upper]> ∅ ∧
    posted w' = [(text, false)].
Proof.
  assert (Hlen : (35 ≤ length jump_series)%nat) by (simpl; lia).
  assert (Hne : last_alerts empty_world !! "AAPL"
                ≠ Some (alert_key "AAPL" Label.touching_upper)) by by_eval.
  split; [auto using jump_verdict|].
  destruct (delivery_failure_is_swallowed sqrt_floor always_down jump_series
              "AAPL" empty_world _ Hlen jump_verdict eq_refl Hne eq_refl)
    as (i & text & w' & _ & _ & Hrun & _ & Hs & Hp).
  exists i, text, w'. auto.
Defined.

(** C7.  Every run keeps the alert state in shape: the entry of the symbol
    is written only when the run has a triggering verdict whose key differs
    from the stored one, no entry goes away, and the entries of the other
    symbols are as before. *)
Theorem alert_state_invariant (sqrt : Qc → Qc) (network_up : nat → bool)
    (df : option (list Bar)) (sym : string) (w : World) :
  let w' := snd (analyze_strategy sqrt network_up df sym w) in
  (last_alerts w' = last_alerts w ∨
   ∃ l v, df = Some l ∧ (35 ≤ length l)%nat ∧
          verdict_of sqrt l = Some v ∧ has_trigger v = true ∧
          last_alerts w !! sym ≠ Some (alert_key sym (msg v)) ∧
          last_alerts w' = <[sym := alert_key sym (msg v)]> (last_alerts w)) ∧
  (∀ s, is_Some (last_alerts w !! s) → is_Some (last_alerts w' !! s)) ∧
  (∀ s, s ≠ sym → last_alerts w' !! s = last_alerts w !! s).
Proof.
  assert (Hcases : short df ∨ ∃ l, df = Some l ∧ (35 ≤ length l)%nat).
  { destruct df as [l|]; [|by left].
    destruct (le_lt_dec 35 (length l)); [right; eauto|by left]. }
  destruct Hcases as [Hs|(l & -> & Hlen)]; cbv zeta.
  - rewrite (analyze_strategy_short _ _ _ _ _ Hs). simpl. auto.
  - destruct (analyze_strategy_world sqrt network_up l sym w Hlen)
      as (v & i & text & Hv & _ & _ & _ & _ & Hrun).
    rewrite Hrun. cbn [snd].
    destruct (fires sym v w) eqn:Hf; [|auto].
    apply fires_true in Hf as [Ht Hne].
    unfold notified. simpl. split; [right; eauto 10|]. split.
    + intros s Hs. destruct (decide (s = sym)) as [->|Hd].
      * rewrite lookup_insert_eq. eauto.
      * by rewrite lookup_insert_ne.
    + intros s Hd. by rewrite lookup_insert_ne.
Qed.

(** ** Windows and constant columns *)

Lemma rolling_lookup (w : nat) (agg : list Qc → cell) (xs : list Qc) (i : nat) :
  (i < length xs)%nat →
  rolling w agg xs !! i = Some (window w xs i ≫= agg).
Proof.
  intros Hi. unfold rolling. rewrite list_lookup_fmap.
  rewrite lookup_seq_lt by done. reflexivity.
Qed.

Lemma window_full (w : nat) (xs : list Qc) (i : nat) :
  (1 ≤ w)%nat → (w ≤ S i)%nat → (i < length xs)%nat →
  ∃ win, window w xs i = Some win ∧ length win = w ∧
         ∀ x, x ∈ win → x ∈ xs.
Proof.
  intros Hw Hwi Hi. unfold window.
  destruct (Nat.leb_spec w (S i)); [|lia].
  eexists. split; [reflexivity|]. split.
  - rewrite length_take, length_drop. lia.
  - intros x Hx. by apply subseteq_take, subseteq_drop in Hx.
Qed.

Lemma count_cons (x : Qc) (xs : list Qc) : count (x :: xs) = (1 + count xs)%Qc.
Proof.
  unfold count, num. simpl length. rewrite Nat2Z.inj_succ.
  apply Qc_is_canon. simpl. rewrite !Qred_correct.
  unfold Z.succ. rewrite inject_Z_plus. ring.
Qed.

Lemma count_nonzero (xs : list Qc) : xs ≠ [] → count xs ≠ 0%Qc.
Proof.
  intros Hne Hc. unfold count, num in Hc.
  apply Q2Qc_eq_iff in Hc. unfold Qeq in Hc. simpl in Hc.
  destruct xs; [done|]. simpl in Hc. lia.
Qed.

Lemma count_minus_one_nonzero (xs : list Qc) :
  (2 ≤ length xs)%nat → (count xs - 1)%Qc ≠ 0%Qc.
Proof.
  intros Hlen. destruct xs as [|x xs]; [simpl in Hlen; lia|].
  rewrite count_cons. intros Hc.
  apply (count_nonzero xs).
  - destruct xs; [simpl in Hlen; lia|done].
  - rewrite <- Hc. ring.
Qed.

Section Constant.
Variable c : Qc.

Lemma sum_constant (xs : list Qc) : constant c xs → sum xs = (c * count xs)%Qc.
Proof.
  induction xs as [|x xs IH]; intros Hc.
  - change (count []) with 0%Qc. unfold sum. simpl. ring.
  - rewrite count_cons. unfold sum in *. simpl.
    rewrite IH by (intros y Hy; apply Hc; by right).
    rewrite (Hc x) by left. ring.
Qed.

Lemma mean_constant (xs : list Qc) : xs ≠ [] → constant c xs → mean xs = Some c.
Proof.
  intros Hne Hc. unfold mean. destruct xs as [|x xs]; [done|].
  f_equal. rewrite sum_constant by done.
  field. by apply count_nonzero.
Qed.

Lemma ewm_from_constant (a : Qc) (xs : list Qc) :
  constant c xs → constant c (ewm_from a c xs).
Proof.
  induction xs as [|x xs IH]; intros Hc y Hy; simpl in Hy.
  - by apply elem_of_nil in Hy.
  - rewrite (Hc x) in Hy by left.
    replace ((1 - a) * c + a * c)%Qc with c in Hy by ring.
    apply elem_of_cons in Hy as [->|Hy]; [done|].
    apply IH; [|done]. intros z Hz. apply Hc. by right.
Qed.

Lemma ewm_mean_constant (span : Z) (xs : list Qc) :
  constant c xs → constant c (ewm_mean span xs).
Proof.
  intros Hc. destruct xs as [|x xs]; simpl;
    [intros y Hy; by apply elem_of_nil in Hy|].
  rewrite (Hc x) by left.
  intros y Hy. apply elem_of_cons in Hy as [->|Hy]; [done|].
  apply (ewm_from_constant (alpha span) xs); [|done].
  intros z Hz. apply Hc. by right.
Qed.

End Constant.

Lemma minus_constant (c : Qc) (xs ys : list Qc) :
  constant c xs → constant c ys → constant 0%Qc (zip_with Qcminus xs ys).
Proof.
  intros Hx Hy z Hz.
  apply list_elem_of_lookup_1 in Hz as [i Hz].
  apply lookup_zip_with_Some in Hz as (x & y & -> & Hi & Hj).
  rewrite (Hx x) by (by eapply list_elem_of_lookup_2).
  rewrite (Hy y) by (by eapply list_elem_of_lookup_2).
  ring.
Qed.

Lemma std_constant (sqrt : Qc → Qc) (c : Qc) (xs : list Qc) :
  sqrt 0%Qc = 0%Qc → (2 ≤ length xs)%nat → constant c xs →
  std sqrt xs = Some 0%Qc.
Proof.
  intros Hsqrt Hlen Hc. unfold std.
  rewrite (mean_constant c) by (done || (intros ->; simpl in Hlen; lia)).
  destruct (Nat.leb_spec (length xs) 1); [lia|].
  f_equal. transitivity (sqrt 0%Qc); [|exact Hsqrt]. f_equal.
  rewrite (sum_constant 0%Qc).
  - field. by apply count_minus_one_nonzero.
  - intros y Hy. apply list_elem_of_fmap in Hy as (x & -> & Hx).
    rewrite (Hc x Hx). ring.
Qed.

(** ** The claims on the numbers and on the returned fields *)

(** C8.  On a frame of at least 35 bars whose close is the same number c
    in every bar, with a square root that maps 0 to 0: from the 20th bar on
    the three Bollinger cells are c; the MACD histogram is 0 and both EMAs
    are c in every row; no two consecutive rows make a crossover; and
    [analyze_strategy] returns "trend stable" with severity info and leaves
    the world as it was, so nothing is sent. *)
Theorem constant_price_is_trend_stable (sqrt : Qc → Qc) (network_up : nat → bool)
    (df : list Bar) (c : Qc) (sym : string) (w : World) :
  sqrt 0%Qc = 0%Qc →
  (35 ≤ length df)%nat →
  (∀ b, b ∈ df → Close b = c) →
  (∀ i r, (19 ≤ i)%nat → enrich sqrt df !! i = Some r →
     BB_Mid r = Some c ∧ BB_Upper r = Some c ∧ BB_Lower r = Some c) ∧
  (∀ i r, enrich sqrt df !! i = Some r →
     MACD_Hist r = 0%Qc ∧ EMA_F r = c ∧ EMA_S r = c) ∧
  (∀ i prev r, enrich sqrt df !! i = Some prev →
     enrich sqrt df !! S i = Some r →
     crossover prev r = mkVerdict Label.trend_stable Label.info false) ∧
  ∃ i, analyze_strategy sqrt network_up (Some df) sym w
         = (Ok (Some (enrich sqrt df, i)), w) ∧
       info_msg i = Label.trend_stable ∧
       info_alert_level i = Label.info.
Proof.
  intros Hsqrt Hlen Hconst.
  assert (Hclose : constant c (Close <$> df)).
  { intros x Hx. apply list_elem_of_fmap in Hx as (b & -> & Hb). by apply Hconst. }
  assert (Hbb : ∀ i r, (19 ≤ i)%nat → enrich sqrt df !! i = Some r →
     BB_Mid r = Some c ∧ BB_Upper r = Some c ∧ BB_Lower r = Some c).
  { intros i r Hi Hr.
    pose proof (lookup_lt_Some _ _ _ Hr) as Hlt. rewrite length_enrich in Hlt.
    apply enrich_lookup in Hr as (_ & Hmid & (s & Hs & Hup & Hlo) & _).
    assert (Hlt' : (i < length (Close <$> df))%nat) by (by rewrite length_fmap).
    rewrite rolling_lookup in Hmid, Hs by done.
    destruct (window_full 20 (Close <$> df) i) as (win & Hwin & Hwl & Hsub);
      [lia..|].
    rewrite Hwin in Hmid, Hs. simpl in Hmid, Hs.
    assert (Hcw : constant c win) by (intros x Hx; by apply Hclose, Hsub).
    rewrite (mean_constant c) in Hmid
      by (done || (intros ->; simpl in Hwl; lia)).
    rewrite (std_constant sqrt c) in Hs by (done || lia).
    rewrite Hup, Hlo. injection Hmid as <-. injection Hs as <-. simpl.
    split; [reflexivity|]. split; f_equal; ring. }
  assert (Hrows : ∀ i r, enrich sqrt df !! i = Some r →
     MACD_Hist r = 0%Qc ∧ EMA_F r = c ∧ EMA_S r = c).
  { intros i r Hr.
    apply enrich_lookup in Hr as (_ & _ & _ & Hmacd & Hsig & -> & Hf & Hs).
    cbv zeta in Hmacd, Hsig.
    pose proof (minus_constant c _ _ (ewm_mean_constant c 12 _ Hclose)
                  (ewm_mean_constant c 26 _ Hclose)) as Hm0.
    rewrite (Hm0 (MACD r)) by (by eapply list_elem_of_lookup_2).
    rewrite (ewm_mean_constant 0%Qc 9 _ Hm0 (Signal_Line r))
      by (by eapply list_elem_of_lookup_2).
    split; [ring|]. split.
    - apply (ewm_mean_constant c 9 _ Hclose). by eapply list_elem_of_lookup_2.
    - apply (ewm_mean_constant c 21 _ Hclose). by eapply list_elem_of_lookup_2. }
  assert (Hcross : ∀ prev r, (∃ i, enrich sqrt df !! i = Some prev) →
     (∃ j, enrich sqrt df !! j = Some r) →
     crossover prev r = mkVerdict Label.trend_stable Label.info false).
  { intros prev r [i Hp] [j Hr].
    destruct (Hrows _ _ Hp) as (_ & Hpf & Hps).
    destruct (Hrows _ _ Hr) as (_ & Hrf & Hrs).
    pose proof (crossover_cases prev r) as (_ & _ & _ & Hstable).
    cbv zeta in Hstable. apply Hstable; rewrite ?Hpf, ?Hps, ?Hrf, ?Hrs;
      intros [_ Hlt]; by apply Qclt_not_eq in Hlt. }
  split; [exact Hbb|]. split; [exact Hrows|]. split; [eauto|].
  destruct (analyze_strategy_run sqrt network_up df sym w Hlen)
    as (prev & last & Hprev & Hlast & _ & Hrun).
  cbv zeta in Hrun.
  assert (Hv : bollinger (Close (bar last)) last (crossover prev last)
               = mkVerdict Label.trend_stable Label.info false).
  { rewrite Hcross by eauto.
    destruct (Hbb (length df - 1)%nat last ltac:(lia) Hlast) as (_ & Hup & Hlo).
    pose proof (enrich_lookup _ _ _ _ Hlast) as (Hbar & _).
    assert (Hcl : Close (bar last) = c)
      by (by apply Hconst; eapply list_elem_of_lookup_2).
    pose proof (bollinger_cases (Close (bar last)) last
                  (mkVerdict Label.trend_stable Label.info false))
      as (_ & _ & Hnone).
    cbv zeta in Hnone. apply Hnone; rewrite ?Hup, ?Hlo, Hcl; simpl;
      intros Hlt; by apply Qclt_not_eq in Hlt. }
  rewrite Hv in Hrun. unfold fires in Hrun. simpl in Hrun.
  eexists. split; [exact Hrun|]. split; reflexivity.
Qed.

Lemma constant_price_is_trend_stable_witness :
  (sqrt_floor 0%Qc = 0%Qc ∧ (35 ≤ length flat_series)%nat ∧
   ∀ b, b ∈ flat_series → Close b = num 100) ∧
  ∃ i, analyze_strategy sqrt_floor always_up (Some flat_series) "NVDA" empty_world
         = (Ok (Some (enrich sqrt_floor flat_series, i)), empty_world) ∧
       info_msg i = Label.trend_stable ∧
       info_alert_level i = Label.info.
Proof.
  assert (H0 : sqrt_floor 0%Qc = 0%Qc) by (apply Qc_is_canon; reflexivity).
  assert (Hlen : (35 ≤ length flat_series)%nat) by (simpl; lia).
  assert (Hc : ∀ b, b ∈ flat_series → Close b = num 100).
  { intros b Hb. apply elem_of_replicate in Hb as [-> _]. reflexivity. }
  split; [auto|].
  exact (proj2 (proj2 (proj2
    (constant_price_is_trend_stable sqrt_floor always_up flat_series (num 100)
       "NVDA" empty_world H0 Hlen Hc)))).
Defined.

Lemma if_label (b : bool) (x y : string) (P : Prop) :
  x ≠ y → (b = true ↔ P) →
  ((if b then x else y) = x ↔ P) ∧ ((if b then x else y) = y ↔ ¬ P).
Proof.
  intros Hne Hb. destruct b.
  - assert (HP : P) by (by apply Hb).
    split; split; intros; try done; try congruence; tauto.
  - assert (HP : ¬ P) by (intros HP; apply Hb in HP; discriminate).
    split; split; intros; try done; try congruence; tauto.
Qed.

(** C9.  On a frame of at least 35 bars the display fields of the returned
    dictionary are read off the last row, whatever the decision chain
    gave: [price] is its close; [bb_pos] is "inside" exactly when
    BB_Lower < close < BB_Upper and "outside" otherwise; [macd_status] is
    "bullish" exactly when MACD_Hist > 0 and "bearish" otherwise; [trend] is
    "bullish" exactly when EMA_F > EMA_S and "bearish" otherwise. *)
Theorem display_fields_from_last_row (sqrt : Qc → Qc) (network_up : nat → bool)
    (df : list Bar) (sym : string) (w : World) :
  (35 ≤ length df)%nat →
  ∃ last i w',
    iloc_neg (enrich sqrt df) 1 w = (Ok last, w) ∧
    analyze_strategy sqrt network_up (Some df) sym w
      = (Ok (Some (enrich sqrt df, i)), w') ∧
    price i = Close (bar last) ∧
    let inside := cell_Lt (BB_Lower last) (Some (Close (bar last))) ∧
                  cell_Lt (Some (Close (bar last))) (BB_Upper last) in
    (bb_pos i = Label.inside ↔ inside) ∧
    (bb_pos i = Label.outside ↔ ¬ inside) ∧
    (macd_status i = Label.macd_bullish ↔ (0 < MACD_Hist last)%Qc) ∧
    (macd_status i = Label.macd_bearish ↔ ¬ (0 < MACD_Hist last)%Qc) ∧
    (trend i = Label.trend_bullish ↔ (EMA_S last < EMA_F last)%Qc) ∧
    (trend i = Label.trend_bearish ↔ ¬ (EMA_S last < EMA_F last)%Qc).
Proof.
  intros Hlen.
  destruct (analyze_strategy_run sqrt network_up df sym w Hlen)
    as (prev & last & _ & Hlast & _ & Hrun).
  cbv zeta in Hrun.
  destruct (iloc_neg_Ok (enrich sqrt df) 1 w) as (last' & Hlast' & Hi1);
    [rewrite length_enrich; lia|].
  rewrite length_enrich in Hlast'.
  assert (last' = last) by congruence. subst last'.
  exists last. eexists. eexists.
  split; [exact Hi1|]. split; [exact Hrun|]. split; [reflexivity|].
  cbv zeta. unfold make_info. cbn [bb_pos macd_status trend].
  split; [|split; [|split; [|split; [|split]]]];
    apply if_label; try (vm_compute; discriminate);
    rewrite ?andb_true_iff, ?cell_lt_iff, ?Qclt_bool_iff; reflexivity.
Qed.

Lemma display_fields_from_last_row_witness :
  (35 ≤ length strong_buy_series)%nat ∧
  ∃ i w',
    analyze_strategy sqrt_floor always_up (Some strong_buy_series) "AAPL"
      empty_world = (Ok (Some (enrich sqrt_floor strong_buy_series, i)), w') ∧
    macd_status i = Label.macd_bullish ∧
    trend i = Label.trend_bullish.
Proof.
  assert (Hlen : (35 ≤ length strong_buy_series)%nat) by (simpl; lia).
  split; [exact Hlen|].
  destruct (display_fields_from_last_row sqrt_floor always_up strong_buy_series
              "AAPL" empty_world Hlen)
    as (last & i & w' & Hi1 & Hrun & _ & _ & _ & Hm & _ & Ht & _).
  exists i, w'. split; [exact Hrun|].
  apply iloc_neg_lookup in Hi1. rewrite length_enrich in Hi1.
  destruct (iloc_neg_Ok (enrich sqrt_floor strong_buy_series) 2 empty_world)
    as (prev & Hprev & _); [rewrite length_enrich; lia|].
  rewrite length_enrich in Hprev.
  sample_facts strong_buy_comparisons Hprev Hi1.
  split; [by apply Hm | by apply Ht].
Defined.

(** C10.  On a frame of at least 35 bars every positional access is in
    bounds: [iloc[-1]] and [iloc[-2]] return rows, the 20-bar windows that
    end at these two rows are full (20 closes each, so [min_periods] is
    met), the tail of 10 volumes has 10 elements, and [analyze_strategy]
    returns a result, not an exception: the [IndexError] branches of
    [iloc_neg] are not taken. *)
Theorem positional_accesses_in_bounds (sqrt : Qc → Qc) (network_up : nat → bool)
    (df : list Bar) (sym : string) (w : World) :
  (35 ≤ length df)%nat →
  ∃ prev last,
    iloc_neg (enrich sqrt df) 2 w = (Ok prev, w) ∧
    iloc_neg (enrich sqrt df) 1 w = (Ok last, w) ∧
    enrich sqrt df !! (length df - 2)%nat = Some prev ∧
    enrich sqrt df !! (length df - 1)%nat = Some last ∧
    (∃ win, window 20 (Close <$> df) (length df - 1) = Some win ∧
            length win = 20%nat) ∧
    (∃ win, window 20 (Close <$> df) (length df - 2) = Some win ∧
            length win = 20%nat) ∧
    length (tail 10 ((λ r, Volume (bar r)) <$> enrich sqrt df)) = 10%nat ∧
    ∃ i w', analyze_strategy sqrt network_up (Some df) sym w
            = (Ok (Some (enrich sqrt df, i)), w').
Proof.
  intros Hlen.
  pose proof (length_enrich sqrt df) as Hl.
  destruct (iloc_neg_Ok (enrich sqrt df) 2 w) as (prev & Hprev & H2); [lia|].
  destruct (iloc_neg_Ok (enrich sqrt df) 1 w) as (last & Hlast & H1); [lia|].
  rewrite Hl in Hlast, Hprev.
  exists prev, last. split; [exact H2|]. split; [exact H1|].
  split; [exact Hprev|]. split; [exact Hlast|].
  assert (Hlc : length (Close <$> df) = length df) by apply length_fmap.
  destruct (window_full 20 (Close <$> df) (length df - 1))
    as (win1 & Hwin1 & Hwl1 & _); [lia..|].
  destruct (window_full 20 (Close <$> df) (length df - 2))
    as (win2 & Hwin2 & Hwl2 & _); [lia..|].
  split; [eauto|]. split; [eauto|]. split.
  - unfold tail. rewrite length_drop, length_fmap. lia.
  - destruct (analyze_strategy_run sqrt network_up df sym w Hlen)
      as (? & ? & _ & _ & _ & Hrun).
    eauto.
Qed.

Lemma positional_accesses_in_bounds_witness :
  (35 ≤ length breakout_series)%nat ∧
  ∃ i w', analyze_strategy sqrt_floor always_up (Some breakout_series) "BTC-USD"
            empty_world
          = (Ok (Some (enrich sqrt_floor breakout_series, i)), w').
Proof.
  assert (Hlen : (35 ≤ length breakout_series)%nat) by (simpl; lia).
  split; [exact Hlen|].
  destruct (positional_accesses_in_bounds sqrt_floor always_up breakout_series
              "BTC-USD" empty_world Hlen)
    as (_ & _ & _ & _ & _ & _ & _ & _ & _ & Hrun).
  exact Hrun.
Defined.

(** * The rest of the program *)

(** ** Single calls *)

Lemma long_or_short (df : option (list Bar)) :
  short df ∨ ∃ l, df = Some l ∧ (35 ≤ length l)%nat.
Proof.
  destruct df as [l|]; [|by left].
  destruct (le_lt_dec 35 (length l)); [right; eauto|by left].
Qed.

(** X1.  [fetch_data] never raises and leaves the world alone.  It returns
    [None] exactly when the download raised or gave no rows; otherwise it
    returns the downloaded rows, of which there is at least one. *)
Theorem fetch_data_degrades_to_none
    (yf_download : string → string → option (list Bar))
    (ticker interval : string) (w : World) :
  fetch_data yf_download ticker interval w
    = (Ok (fetched yf_download ticker interval), w) ∧
  (fetched yf_download ticker interval = None ↔
     yf_download ticker interval = None ∨ yf_download ticker interval = Some []) ∧
  (∀ l, fetched yf_download ticker interval = Some l →
        l ≠ [] ∧ yf_download ticker interval = Some l).
Proof.
  unfold fetch_data, fetched, try_except, bind, download, ret.
  destruct (yf_download ticker interval) as [[|b l]|]; simpl.
  all: split; [done|]; split; naive_solver.
Qed.


Lemma result_of_frame (sqrt : Qc → Qc)
    (network_up network_up' : nat → bool) (df : option (list Bar))
    (sym sym' : string) (w w' : World) :
  fst (analyze_strategy sqrt network_up df sym w)
  = fst (analyze_strategy sqrt network_up' df sym' w').
Proof.
  destruct (long_or_short df) as [Hs|(l & -> & Hlen)].
  - by rewrite !(analyze_strategy_short _ _ _ _ _ Hs).
  - destruct (analyze_strategy_run sqrt network_up l sym w Hlen)
      as (prev & last & Hp & Hl & _ & Hrun).
    destruct (analyze_strategy_run sqrt network_up' l sym' w' Hlen)
      as (prev' & last' & Hp' & Hl' & _ & Hrun').
    assert (prev' = prev) by congruence. assert (last' = last) by congruence.
    subst. cbv zeta in Hrun, Hrun'. by rewrite Hrun, Hrun'.
Qed.

(** X3.  What [analyze_strategy] returns depends on the frame alone: the
    symbol, the alert state, the request log and the network have no part
    in it. *)
Theorem result_depends_on_frame_only (sqrt : Qc → Qc)
    (network_up network_up' : nat → bool) (df : option (list Bar))
    (sym sym' : string) (w w' : World) :
  fst (analyze_strategy sqrt network_up df sym w)
  = fst (analyze_strategy sqrt network_up' df sym' w').
Proof. apply result_of_frame. Qed.

(** The effect of one run on the world, by the key the frame wants
    stored. *)
Lemma analyze_strategy_effect (sqrt : Qc → Qc) (network_up : nat → bool)
    (df : option (list Bar)) (sym : string) (w : World) :
  let w' := snd (analyze_strategy sqrt network_up df sym w) in
  match pending_key sqrt df sym with
  | Some key =>
      if bool_decide (last_alerts w !! sym = Some key) then w' = w
      else ∃ text,
        w' = mkWorld (<[sym := key]> (last_alerts w))
                     (posted w ++ [(text, network_up (length (posted w)))])
  | None => w' = w
  end.
Proof.
  cbv zeta. unfold pending_key.
  destruct (long_or_short df) as [Hs|(l & -> & Hlen)].
  - rewrite (analyze_strategy_short _ _ _ _ _ Hs).
    destruct df as [l|]; [|done]. simpl in Hs.
    destruct (Nat.ltb_spec (length l) 35); [done|lia].
  - destruct (Nat.ltb_spec (length l) 35); [lia|].
    destruct (analyze_strategy_world sqrt network_up l sym w Hlen)
      as (v & i & text & Hv & _ & _ & _ & _ & Hrun).
    rewrite Hrun, Hv. cbn [snd]. unfold fires.
    destruct (has_trigger v); simpl; [|done].
    destruct (bool_decide _); simpl; [done|].
    exists text. reflexivity.
Qed.

(** X4.  A run makes a request exactly when it rewrites the entry of its
    symbol: either the world is as it was, or exactly one request is
    appended to the log and the entry of the symbol changes to a new key.
    The entry never changes silently and no request goes out without the
    entry changing. *)
Theorem request_iff_entry_rewritten (sqrt : Qc → Qc) (network_up : nat → bool)
    (df : option (list Bar)) (sym : string) (w : World) :
  let w' := snd (analyze_strategy sqrt network_up df sym w) in
  w' = w ∨
  ∃ text key,
    posted w' = (posted w ++ [(text, network_up (length (posted w)))])%list ∧
    last_alerts w' = <[sym := key]> (last_alerts w) ∧
    last_alerts w !! sym ≠ Some key ∧
    last_alerts w' !! sym = Some key.
Proof.
  cbv zeta.
  pose proof (analyze_strategy_effect sqrt network_up df sym w) as H.
  cbv zeta in H.
  destruct (pending_key sqrt df sym) as [key|]; [|by left].
  destruct (bool_decide (last_alerts w !! sym = Some key)) eqn:Hb; [by left|].
  apply bool_decide_eq_false in Hb.
  destruct H as [text ->]. right. exists text, key. simpl.
  by rewrite lookup_insert_eq.
Qed.

(** ** The decision chain and what is shown *)

Lemma verdict_cases (prev last : Row) (p : Qc) :
  let v := bollinger p last (crossover prev last) in
  v = mkVerdict Label.trend_stable Label.info false ∨
  v = mkVerdict Label.strong_buy Label.critical true ∨
  v = mkVerdict Label.golden_cross Label.warning true ∨
  v = mkVerdict Label.death_cross Label.critical true ∨
  (∃ t, v = mkVerdict Label.touching_upper Label.warning t) ∨
  (∃ t, v = mkVerdict Label.touching_lower Label.warning t).
Proof.
  cbv zeta. unfold bollinger, crossover.
  repeat match goal with
  | |- context [if ?b then _ else _] => destruct b; simpl
  end; eauto 10.
Qed.

(** X5.  The severity is a function of the final message, and so is the
    trigger for the crossover messages: "trend stable" always comes with
    severity info and no trigger; "strong buy" and "death cross" with
    critical and a trigger; "golden cross" with warning and a trigger; the
    two Bollinger messages with warning.  No other message is produced. *)
Theorem severity_follows_message (prev last : Row) (p : Qc) :
  let v := bollinger p last (crossover prev last) in
  (msg v = Label.trend_stable ∧ alert_level v = Label.info ∧ has_trigger v = false) ∨
  ((msg v = Label.strong_buy ∨ msg v = Label.death_cross) ∧
     alert_level v = Label.critical ∧ has_trigger v = true) ∨
  (msg v = Label.golden_cross ∧ alert_level v = Label.warning ∧ has_trigger v = true) ∨
  ((msg v = Label.touching_upper ∨ msg v = Label.touching_lower) ∧
     alert_level v = Label.warning).
Proof.
  cbv zeta.
  destruct (verdict_cases prev last p)
    as [-> | [-> | [-> | [-> | [[t ->] | [t ->]]]]]]; simpl; auto 10.
Qed.

Lemma triggered_message (prev last : Row) (p : Qc) :
  let v := bollinger p last (crossover prev last) in
  has_trigger v = true → msg v ∈ triggering_messages.
Proof.
  cbv zeta. unfold triggering_messages.
  destruct (verdict_cases prev last p)
    as [-> | [-> | [-> | [-> | [[t ->] | [t ->]]]]]]; simpl;
    intros Ht; try discriminate; set_solver.
Qed.

Lemma returned_info (sqrt : Qc → Qc) (network_up : nat → bool)
    (df : list Bar) (sym : string) (w w' : World) (i : Info) (v : Verdict) :
  (35 ≤ length df)%nat →
  verdict_of sqrt df = Some v →
  analyze_strategy sqrt network_up (Some df) sym w
    = (Ok (Some (enrich sqrt df, i)), w') →
  info_msg i = msg v ∧ info_alert_level i = alert_level v.
Proof.
  intros Hlen Hv Hrun.
  destruct (analyze_strategy_world sqrt network_up df sym w Hlen)
    as (v' & i' & text & Hv' & Hm & Ha & _ & _ & Hrun').
  assert (v' = v) by congruence. subst v'.
  rewrite Hrun in Hrun'. injection Hrun' as -> _. done.
Qed.

(** X6.  What the summary column of a symbol shows for a frame of at least
    35 bars: the fixed text "監控中" on a success banner when the message is
    "trend stable" (the message itself is never shown then); the message on
    an error banner for "strong buy" and "death cross"; the message on a
    warning banner for "golden cross" and the two Bollinger messages. *)
Theorem banner_by_message (sqrt : Qc → Qc) (network_up : nat → bool)
    (df : list Bar) (sym : string) (w : World) :
  (35 ≤ length df)%nat →
  ∃ i w' col,
    analyze_strategy sqrt network_up (Some df) sym w
      = (Ok (Some (enrich sqrt df, i)), w') ∧
    render_column sym (Some i) = Some col ∧
    let shown := "**" ++ sym ++ " | " ++ info_msg i ++ "**" in
    (info_msg i = Label.trend_stable ∧
       col_banner col = st_success ("**" ++ sym ++ " | 監控中**")) ∨
    ((info_msg i = Label.strong_buy ∨ info_msg i = Label.death_cross) ∧
       col_banner col = st_error shown) ∨
    ((info_msg i = Label.golden_cross ∨ info_msg i = Label.touching_upper ∨
      info_msg i = Label.touching_lower) ∧
       col_banner col = st_warning shown).
Proof.
  intros Hlen.
  destruct (analyze_strategy_run sqrt network_up df sym w Hlen)
    as (prev & last & _ & _ & _ & Hrun).
  cbv zeta in Hrun. eexists _, _, _. split; [exact Hrun|].
  split; [reflexivity|]. cbv zeta. simpl.
  destruct (verdict_cases prev last (Close (bar last)))
    as [-> | [-> | [-> | [-> | [[t ->] | [t ->]]]]]]; simpl; auto 10.
Qed.

Lemma banner_by_message_witness :
  (35 ≤ length flat_series)%nat ∧
  ∃ i w' col,
    analyze_strategy sqrt_floor always_up (Some flat_series) "NVDA" empty_world
      = (Ok (Some (enrich sqrt_floor flat_series, i)), w') ∧
    render_column "NVDA" (Some i) = Some col ∧
    col_banner col = st_success "**NVDA | 監控中**".
Proof.
  assert (Hlen : (35 ≤ length flat_series)%nat) by (simpl; lia).
  split; [exact Hlen|].
  destruct (banner_by_message sqrt_floor always_up flat_series "NVDA"
              empty_world Hlen) as (i & w' & col & Hrun & Hcol & Hcases).
  exists i, w', col. split; [exact Hrun|]. split; [exact Hcol|].
  destruct (returned_info _ _ _ _ _ _ _ _ Hlen flat_verdict Hrun) as [Hi _].
  simpl in Hi. cbv zeta in Hcases. rewrite Hi in Hcases.
  destruct Hcases as [[_ Hb] | [[[H|H] _] | [[H|[H|H]] _]]];
    [exact Hb | vm_compute in H; discriminate..].
Defined.

(** ** The stored keys *)

(** X7.  Every run keeps the alert state well keyed: each stored key is
    the key of the symbol it is stored under and of one of the five
    messages a notification can carry; "trend stable" is never stored. *)
Theorem stored_keys_stay_well_keyed (sqrt : Qc → Qc) (network_up : nat → bool)
    (df : option (list Bar)) (sym : string) (w : World) :
  well_keyed (last_alerts w) →
  well_keyed (last_alerts (snd (analyze_strategy sqrt network_up df sym w))) ∧
  Label.trend_stable ∉ triggering_messages.
Proof.
  intros Hw. split; [|unfold triggering_messages; vm_compute; set_solver].
  destruct (long_or_short df) as [Hs|(l & -> & Hlen)].
  - by rewrite (analyze_strategy_short _ _ _ _ _ Hs).
  - destruct (analyze_strategy_run sqrt network_up l sym w Hlen)
      as (prev & last & _ & _ & _ & Hrun).
    cbv zeta in Hrun. rewrite Hrun. cbn [snd].
    destruct (fires _ _ _) eqn:Hf; [|done].
    apply fires_true in Hf as [Ht _].
    unfold notified. simpl. intros s k Hk.
    destruct (decide (s = sym)) as [->|Hne].
    + rewrite lookup_insert_eq in Hk. injection Hk as <-.
      eexists. split; [|reflexivity]. by apply triggered_message.
    + rewrite lookup_insert_ne in Hk by done. by apply Hw.
Qed.

Lemma stored_keys_stay_well_keyed_witness :
  well_keyed (last_alerts empty_world) ∧
  well_keyed (last_alerts (snd (analyze_strategy sqrt_floor always_up
                                  (Some jump_series) "AAPL" empty_world))).
Proof.
  assert (H : well_keyed (last_alerts empty_world)).
  { intros s k Hk. simpl in Hk. by rewrite lookup_empty in Hk. }
  split; [exact H|].
  exact (proj1 (stored_keys_stay_well_keyed sqrt_floor always_up
                  (Some jump_series) "AAPL" empty_world H)).
Defined.

(** ** The frame and its columns *)

(** X8.  The enriched frame has the rows of the downloaded frame, in the
    same order: as many rows, and row i carries bar i. *)
Theorem enrich_keeps_the_bars (sqrt : Qc → Qc) (df : list Bar) :
  length (enrich sqrt df) = length df ∧ bar <$> enrich sqrt df = df.
Proof.
  split; [apply length_enrich|].
  apply list_eq. intros i. rewrite list_lookup_fmap.
  destruct (enrich sqrt df !! i) as [r|] eqn:Hr; simpl.
  - apply enrich_lookup in Hr as (Hb & _). by rewrite Hb.
  - apply lookup_ge_None in Hr. rewrite length_enrich in Hr.
    symmetry. by apply lookup_ge_None.
Qed.

Lemma bars_of_enrich (sqrt : Qc → Qc) (df : list Bar) :
  bar <$> enrich sqrt df = df.
Proof.
  apply list_eq. intros i. rewrite list_lookup_fmap.
  destruct (enrich sqrt df !! i) as [r|] eqn:Hr; simpl.
  - apply enrich_lookup in Hr as (Hb & _). by rewrite Hb.
  - apply lookup_ge_None in Hr. rewrite length_enrich in Hr.
    symmetry. by apply lookup_ge_None.
Qed.

(** X9.  The Telegram text of a run agrees with the [info] the run
    returns: same symbol, same message, same price, and the MACD direction
    is the bullish one exactly when [macd_status] is.  A run appends at
    most this one request to the log. *)
Theorem notification_matches_display (sqrt : Qc → Qc) (network_up : nat → bool)
    (df : list Bar) (sym : string) (w : World) :
  (35 ≤ length df)%nat →
  ∃ i w',
    analyze_strategy sqrt network_up (Some df) sym w
      = (Ok (Some (enrich sqrt df, i)), w') ∧
    (posted w' = posted w ∨
     ∃ text,
       posted w' = (posted w ++ [(text, network_up (length (posted w)))])%list ∧
       tg_sym text = sym ∧
       tg_msg text = info_msg i ∧
       tg_price text = price i ∧
       (tg_macd text = Label.tg_bulls ↔ macd_status i = Label.macd_bullish) ∧
       (tg_macd text = Label.tg_bears ↔ macd_status i = Label.macd_bearish)).
Proof.
  intros Hlen.
  destruct (analyze_strategy_run sqrt network_up df sym w Hlen)
    as (prev & last & _ & _ & _ & Hrun).
  cbv zeta in Hrun. eexists _, _. split; [exact Hrun|].
  destruct (fires _ _ _); [|by left].
  right. eexists. split; [reflexivity|]. simpl.
  repeat split; try done;
    destruct (Qclt_bool 0 (MACD_Hist last)); simpl; intros H;
    try done; vm_compute in H; discriminate.
Qed.

Lemma notification_matches_display_witness :
  (35 ≤ length jump_series)%nat ∧
  ∃ i w',
    analyze_strategy sqrt_floor always_down (Some jump_series) "AAPL" empty_world
      = (Ok (Some (enrich sqrt_floor jump_series, i)), w') ∧
    (posted w' = posted empty_world ∨
     ∃ text,
       posted w' = (posted empty_world ++ [(text, false)])%list ∧
       tg_sym text = "AAPL" ∧
       tg_msg text = info_msg i ∧
       tg_price text = price i ∧
       (tg_macd text = Label.tg_bulls ↔ macd_status i = Label.macd_bullish) ∧
       (tg_macd text = Label.tg_bears ↔ macd_status i = Label.macd_bearish)).
Proof.
  assert (Hlen : (35 ≤ length jump_series)%nat) by (simpl; lia).
  split; [exact Hlen|].
  exact (notification_matches_display sqrt_floor always_down jump_series
           "AAPL" empty_world Hlen).
Defined.

Lemma tail_fmap {A B} (f : A → B) (n : nat) (xs : list A) :
  tail n (f <$> xs) = f <$> tail n xs.
Proof. unfold tail. by rewrite length_fmap, fmap_drop. Qed.

Lemma last_in_tail {A} (xs : list A) (n : nat) (x : A) :
  (1 ≤ n)%nat → xs !! (length xs - 1)%nat = Some x → x ∈ tail n xs.
Proof.
  intros Hn Hx. pose proof (lookup_lt_Some _ _ _ Hx) as Hlt.
  unfold tail. apply list_elem_of_lookup.
  exists (length xs - 1 - (length xs - n))%nat.
  rewrite lookup_drop. rewrite <- Hx. f_equal. lia.
Qed.

(** X10.  The volume ratio of the Telegram text, when the last ten bars
    all have volume v: it is 1 when v is not 0, and NaN when v is 0 (the
    division by zero does not stop the run: the request is made and the
    key stored all the same). *)
Theorem volume_ratio_of_steady_volume (sqrt : Qc → Qc) (network_up : nat → bool)
    (df : list Bar) (v : Qc) (sym : string) (w : World) :
  (35 ≤ length df)%nat →
  (∀ b, b ∈ tail 10 df → Volume b = v) →
  ∃ i w',
    analyze_strategy sqrt network_up (Some df) sym w
      = (Ok (Some (enrich sqrt df, i)), w') ∧
    (w' = w ∨
     ∃ text,
       posted w' = (posted w ++ [(text, network_up (length (posted w)))])%list ∧
       last_alerts w' !! sym = Some (alert_key sym (info_msg i)) ∧
       (v ≠ 0%Qc → tg_vol_ratio text = Some 1%Qc) ∧
       (v = 0%Qc → tg_vol_ratio text = None)).
Proof.
  intros Hlen Hvol.
  destruct (analyze_strategy_run sqrt network_up df sym w Hlen)
    as (prev & last & _ & Hlast & _ & Hrun).
  cbv zeta in Hrun. eexists _, _. split; [exact Hrun|].
  destruct (fires _ _ _); [|by left].
  right. eexists. split; [reflexivity|]. simpl.
  split; [by rewrite lookup_insert_eq|].
  replace ((λ r : Row, Volume (bar r)) <$> enrich sqrt df)
    with (Volume <$> df)
    by (rewrite <- (bars_of_enrich sqrt df) at 1; by rewrite <- list_fmap_compose).
  rewrite tail_fmap.
  assert (Hc : constant v (Volume <$> tail 10 df)).
  { intros x Hx. apply list_elem_of_fmap in Hx as (b & -> & Hb). by apply Hvol. }
  assert (Hne : Volume <$> tail 10 df ≠ []).
  { intros He. apply (f_equal length) in He. rewrite length_fmap in He.
    unfold tail in He. rewrite length_drop in He. simpl in He. lia. }
  rewrite (mean_constant v) by done.
  assert (Hv : Volume (bar last) = v).
  { apply Hvol. apply last_in_tail; [lia|].
    pose proof (enrich_lookup _ _ _ _ Hlast) as (Hb & _). exact Hb. }
  rewrite Hv. unfold cell_div. split.
  - intros Hnz. destruct (Qeq_bool v 0) eqn:He.
    + apply Qeq_bool_eq in He. exfalso. apply Hnz. by apply Qc_is_canon.
    + f_equal. by apply Qcmult_inv_r.
  - intros ->. reflexivity.
Qed.

Lemma volume_ratio_of_steady_volume_witness :
  ((35 ≤ length jump_series)%nat ∧
   ∀ b, b ∈ tail 10 jump_series → Volume b = num 1000) ∧
  ∃ i w',
    analyze_strategy sqrt_floor always_up (Some jump_series) "AAPL" empty_world
      = (Ok (Some (enrich sqrt_floor jump_series, i)), w') ∧
    (w' = empty_world ∨
     ∃ text,
       posted w' = (posted empty_world ++ [(text, true)])%list ∧
       last_alerts w' !! "AAPL" = Some (alert_key "AAPL" (info_msg i)) ∧
       (num 1000 ≠ 0%Qc → tg_vol_ratio text = Some 1%Qc) ∧
       (num 1000 = 0%Qc → tg_vol_ratio text = None)).
Proof.
  assert (Hlen : (35 ≤ length jump_series)%nat) by (simpl; lia).
  assert (Hvol : ∀ b, b ∈ tail 10 jump_series → Volume b = num 1000).
  { intros b Hb. apply subseteq_drop in Hb.
    apply elem_of_app in Hb as [Hb|Hb].
    - apply elem_of_replicate in Hb as [-> _]. reflexivity.
    - apply list_elem_of_singleton in Hb as ->. reflexivity. }
  split; [by split|].
  exact (volume_ratio_of_steady_volume sqrt_floor always_up jump_series
           (num 1000) "AAPL" empty_world Hlen Hvol).
Defined.

(** ** Order on the numbers *)

Lemma this_plus (x y : Qc) : (this (x + y)%Qc == this x + this y)%Q.
Proof. apply Qred_correct. Qed.

Lemma this_mult (x y : Qc) : (this (x * y)%Qc == this x * this y)%Q.
Proof. apply Qred_correct. Qed.

Lemma this_opp (x : Qc) : (this (- x)%Qc == - this x)%Q.
Proof. apply Qred_correct. Qed.

Lemma this_minus (x y : Qc) : (this (x - y)%Qc == this x - this y)%Q.
Proof. unfold Qcminus. rewrite this_plus, this_opp. reflexivity. Qed.

(** Goals on the order of [Qc], over to [Q]. *)
Ltac qc_order :=
  unfold Qcle, Qclt in *;
  repeat match goal with
  | H : context [this (_ + _)%Qc] |- _ => rewrite this_plus in H
  | H : context [this (_ * _)%Qc] |- _ => rewrite this_mult in H
  | H : context [this (_ - _)%Qc] |- _ => rewrite this_minus in H
  | H : context [this (- _)%Qc] |- _ => rewrite this_opp in H
  | |- context [this (_ + _)%Qc] => rewrite this_plus
  | |- context [this (_ * _)%Qc] => rewrite this_mult
  | |- context [this (_ - _)%Qc] => rewrite this_minus
  | |- context [this (- _)%Qc] => rewrite this_opp
  end;
  change (this 0%Qc) with 0%Q in *; change (this 1%Qc) with 1%Q in *.

(** ** The indicator columns *)

Lemma std_is_some (sqrt : Qc → Qc) (xs : list Qc) :
  (2 ≤ length xs)%nat → ∃ s, std sqrt xs = Some (sqrt s).
Proof.
  intros Hlen. unfold std, mean.
  destruct xs as [|x xs]; [simpl in Hlen; lia|].
  destruct (Nat.leb_spec (length (x :: xs)) 1); [lia|]. eauto.
Qed.

Lemma bands_of_row (sqrt : Qc → Qc) (df : list Bar) (i : nat) (r : Row) :
  enrich sqrt df !! i = Some r →
  ((i < 19)%nat ∧ BB_Mid r = None ∧ BB_Upper r = None ∧ BB_Lower r = None) ∨
  ((19 ≤ i)%nat ∧
   ∃ m s, BB_Mid r = Some m ∧
          BB_Upper r = Some (m + sqrt s * num 2)%Qc ∧
          BB_Lower r = Some (m - sqrt s * num 2)%Qc).
Proof.
  intros Hr.
  pose proof (lookup_lt_Some _ _ _ Hr) as Hlt. rewrite length_enrich in Hlt.
  apply enrich_lookup in Hr as (_ & Hmid & (s & Hs & Hup & Hlo) & _).
  assert (Hlt' : (i < length (Close <$> df))%nat) by (by rewrite length_fmap).
  rewrite rolling_lookup in Hmid, Hs by done.
  destruct (le_lt_dec 19 i) as [Hi|Hi].
  - right. split; [done|].
    destruct (window_full 20 (Close <$> df) i) as (win & Hwin & Hwl & _);
      [lia..|].
    rewrite Hwin in Hmid, Hs. simpl in Hmid, Hs.
    destruct (std_is_some sqrt win) as [q Hq]; [lia|].
    rewrite Hq in Hs. injection Hs as <-.
    unfold mean in Hmid. destruct win as [|x win]; [simpl in Hwl; lia|].
    injection Hmid as Hmid. rewrite Hup, Hlo, <- Hmid. simpl. eauto.
  - left. split; [done|].
    unfold window in Hmid, Hs.
    destruct (Nat.leb_spec 20 (S i)); [lia|]. simpl in Hmid, Hs.
    injection Hmid as Hmid. injection Hs as <-.
    rewrite Hup, Hlo, <- Hmid. done.
Qed.

(** X11.  The Bollinger warm-up.  In the first 19 rows there is no 20-bar
    window, and the three Bollinger cells are NaN whatever the closes are.
    From the 20th row on the window holds exactly 20 closes. *)
Theorem bollinger_warm_up (sqrt : Qc → Qc) (df : list Bar) (i : nat) (r : Row) :
  enrich sqrt df !! i = Some r →
  ((i < 19)%nat →
     window 20 (Close <$> df) i = None ∧
     BB_Mid r = None ∧ BB_Upper r = None ∧ BB_Lower r = None) ∧
  ((19 ≤ i)%nat →
     ∃ win, window 20 (Close <$> df) i = Some win ∧ length win = 20%nat).
Proof.
  intros Hr.
  pose proof (lookup_lt_Some _ _ _ Hr) as Hlt. rewrite length_enrich in Hlt.
  split.
  - intros Hi.
    destruct (bands_of_row sqrt df i r Hr)
      as [(_ & Hm & Hu & Hl) | (Hi' & _)]; [|lia].
    split; [|done]. unfold window.
    by destruct (Nat.leb_spec 20 (S i)); [lia|].
  - intros Hi.
    destruct (window_full 20 (Close <$> df) i) as (win & Hwin & Hwl & _);
      [lia|lia|by rewrite length_fmap|].
    eauto.
Qed.

Lemma bollinger_warm_up_witness :
  ∃ r, enrich sqrt_floor jump_series !! 18%nat = Some r ∧
       BB_Mid r = None ∧ BB_Upper r = None ∧ BB_Lower r = None.
Proof.
  destruct (lookup_lt_is_Some_2 (enrich sqrt_floor jump_series) 18) as [r Hr].
  { rewrite length_enrich. simpl. lia. }
  exists r. split; [exact Hr|].
  apply (proj1 (bollinger_warm_up sqrt_floor jump_series 18 r Hr)). lia.
Defined.

(** X12.  With a square root that is never negative, the bands enclose the
    mean in every row where they are defined: lower <= mean <= upper.  So
    no close is above the upper band and below the lower band at once: at
    most one of the two Bollinger tests holds. *)
Theorem bands_enclose_the_mean (sqrt : Qc → Qc) (df : list Bar) (i : nat)
    (r : Row) (m u l : Qc) :
  (∀ q, (0 <= sqrt q)%Qc) →
  enrich sqrt df !! i = Some r →
  BB_Mid r = Some m → BB_Upper r = Some u → BB_Lower r = Some l →
  (l <= m)%Qc ∧ (m <= u)%Qc ∧
  ∀ p, ¬ (cell_Lt (BB_Upper r) (Some p) ∧ cell_Lt (Some p) (BB_Lower r)).
Proof.
  intros Hsqrt Hr Hm Hu Hl.
  destruct (bands_of_row sqrt df i r Hr)
    as [(_ & Hm' & _) | (_ & m' & s & Hm' & Hu' & Hl')]; [congruence|].
  assert (m' = m) by congruence. subst m'.
  rewrite Hu' in Hu. rewrite Hl' in Hl. injection Hu as <-. injection Hl as <-.
  pose proof (Hsqrt s) as Hs.
  assert (H2 : (0 <= num 2)%Qc) by (vm_compute; discriminate).
  assert (Hx : (0 <= sqrt s * num 2)%Qc) by (qc_order; nra).
  split; [qc_order; lra|]. split; [qc_order; lra|].
  intros p [H1 H3]. rewrite Hu' in H1. rewrite Hl' in H3. simpl in H1, H3.
  qc_order. lra.
Qed.

Lemma sqrt_floor_nonneg (q : Qc) : (0 <= sqrt_floor q)%Qc.
Proof.
  unfold sqrt_floor.
  pose proof (Z.sqrt_nonneg (Qnum q * 2 ^ 106 / QDen q)) as Hz.
  set (z := Z.sqrt (Qnum q * 2 ^ 106 / QDen q)) in *.
  unfold Qcle, Q2Qc. cbn [this]. rewrite !Qred_correct.
  unfold Qle. cbn [Qnum Qden]. lia.
Qed.

Lemma bands_enclose_the_mean_witness :
  (∀ q, (0 <= sqrt_floor q)%Qc) ∧
  ∃ r m u l,
    enrich sqrt_floor jump_series !! 34%nat = Some r ∧
    BB_Mid r = Some m ∧ BB_Upper r = Some u ∧ BB_Lower r = Some l ∧
    (l <= m)%Qc ∧ (m <= u)%Qc.
Proof.
  split; [exact sqrt_floor_nonneg|].
  destruct (lookup_lt_is_Some_2 (enrich sqrt_floor jump_series) 34) as [r Hr].
  { rewrite length_enrich. simpl. lia. }
  destruct (bands_of_row sqrt_floor jump_series 34 r Hr)
    as [(Hi & _) | (_ & m & s & Hm & Hu & Hl)]; [lia|].
  exists r, m, (m + sqrt_floor s * num 2)%Qc, (m - sqrt_floor s * num 2)%Qc.
  split; [exact Hr|].
  split; [exact Hm|]. split; [exact Hu|]. split; [exact Hl|].
  destruct (bands_enclose_the_mean sqrt_floor jump_series 34 r m _ _
              sqrt_floor_nonneg Hr Hm Hu Hl) as (H1 & H2 & _).
  auto.
Defined.

(** X13.  The first row seeds every exponential average with the first
    close: EMA_F and EMA_S are that close, and MACD, the signal line and
    the histogram are 0. *)
Theorem first_row_seeds_the_averages (sqrt : Qc → Qc) (df : list Bar) (r : Row) :
  enrich sqrt df !! 0%nat = Some r →
  EMA_F r = Close (bar r) ∧ EMA_S r = Close (bar r) ∧
  MACD r = 0%Qc ∧ Signal_Line r = 0%Qc ∧ MACD_Hist r = 0%Qc.
Proof.
  intros Hr.
  apply enrich_lookup in Hr as (Hb & _ & _ & Hmacd & Hsig & Hh & Hf & Hs).
  cbv zeta in Hmacd, Hsig.
  destruct df as [|b df]; [discriminate|].
  simpl in Hb. injection Hb as ->.
  simpl in Hf, Hs, Hmacd, Hsig.
  injection Hf as <-. injection Hs as <-.
  injection Hmacd as Hmacd. injection Hsig as Hsig.
  assert (Hm0 : MACD r = 0%Qc) by (rewrite <- Hmacd; ring).
  assert (Hs0 : Signal_Line r = 0%Qc) by (rewrite <- Hsig; ring).
  rewrite Hh, Hm0, Hs0. repeat split; try done; ring.
Qed.

Lemma first_row_seeds_the_averages_witness :
  ∃ r, enrich sqrt_floor jump_series !! 0%nat = Some r ∧
       EMA_F r = num 100 ∧ EMA_S r = num 100 ∧ MACD_Hist r = 0%Qc.
Proof.
  destruct (lookup_lt_is_Some_2 (enrich sqrt_floor jump_series) 0) as [r Hr].
  { rewrite length_enrich. simpl. lia. }
  exists r. split; [exact Hr|].
  destruct (first_row_seeds_the_averages sqrt_floor jump_series r Hr)
    as (Hf & Hs & _ & _ & Hh).
  pose proof (enrich_lookup _ _ _ _ Hr) as (Hb & _).
  simpl in Hb. injection Hb as Hb.
  rewrite Hf, Hs, <- Hb. auto.
Defined.

(** ** The loop over the symbols *)

(** One run either leaves the world alone or appends one request and
    stores a key of the symbol. *)
Lemma request_or_not (sqrt : Qc → Qc) (network_up : nat → bool)
    (df : option (list Bar)) (sym : string) (w : World) :
  let w' := snd (analyze_strategy sqrt network_up df sym w) in
  w' = w ∨
  ∃ text key,
    posted w' = (posted w ++ [(text, network_up (length (posted w)))])%list ∧
    last_alerts w' = <[sym := key]> (last_alerts w) ∧
    ∃ m, m ∈ triggering_messages ∧ key = alert_key sym m.
Proof.
  cbv zeta.
  destruct (long_or_short df) as [Hs|(l & -> & Hlen)].
  - left. by rewrite (analyze_strategy_short _ _ _ _ _ Hs).
  - destruct (analyze_strategy_run sqrt network_up l sym w Hlen)
      as (prev & last & _ & _ & _ & Hrun).
    cbv zeta in Hrun. rewrite Hrun. cbn [snd].
    destruct (fires _ _ _) eqn:Hf; [|by left].
    apply fires_true in Hf as [Ht _].
    right. eexists _, _. unfold notified. simpl.
    split; [reflexivity|]. split; [reflexivity|].
    eexists. split; [|reflexivity]. by apply triggered_message.
Qed.

Section Loop.
Variable sqrt : Qc → Qc.
Variable network_up : nat → bool.
Variable yf_download : string → string → option (list Bar).

Lemma fetch_data_eq (ticker interval : string) (w : World) :
  fetch_data yf_download ticker interval w
  = (Ok (fetched yf_download ticker interval), w).
Proof.
  unfold fetch_data, fetched, try_except, bind, download, ret.
  by destruct (yf_download ticker interval) as [[|b l]|].
Qed.

Lemma analyze_strategy_Ok (df : option (list Bar)) (sym : string) (w : World) :
  ∃ e, analyze_strategy sqrt network_up df sym w
       = (Ok e, snd (analyze_strategy sqrt network_up df sym w)).
Proof.
  destruct (long_or_short df) as [Hs|(l & -> & Hlen)].
  - rewrite (analyze_strategy_short _ _ _ _ _ Hs). eauto.
  - destruct (analyze_strategy_run sqrt network_up l sym w Hlen)
      as (prev & last & _ & _ & _ & Hrun).
    cbv zeta in Hrun. rewrite Hrun. eauto.
Qed.

(** One turn of the loop, then the rest. *)
Lemma monitor_cons (sym : string) (rest : list string) (interval : string)
    (cache : gmap string (option (list Row * Info))) (w : World) :
  ∃ e,
    analyze_strategy sqrt network_up (fetched yf_download sym interval) sym w
      = (Ok e, snd (analyze_strategy sqrt network_up
                      (fetched yf_download sym interval) sym w)) ∧
    monitor sqrt network_up yf_download (sym :: rest) interval cache w
    = match monitor sqrt network_up yf_download rest interval
              (<[sym := e]> cache)
              (snd (analyze_strategy sqrt network_up
                      (fetched yf_download sym interval) sym w)) with
      | (Ok t, w') => (Ok (fst t, render_column sym (snd <$> e) :: snd t), w')
      | (Raise x, w') => (Raise x, w')
      end.
Proof.
  destruct (analyze_strategy_Ok (fetched yf_download sym interval) sym w)
    as [e He].
  exists e. split; [exact He|].
  simpl. unfold bind at 1. rewrite fetch_data_eq.
  unfold bind at 1. rewrite He.
  unfold bind at 1. by destruct (monitor _ _ _ _ _ _ _) as [[t|x] w'].
Qed.

Lemma monitor_Ok (symbols : list string) (interval : string)
    (cache : gmap string (option (list Row * Info))) (w : World) :
  ∃ cache' cols,
    monitor sqrt network_up yf_download symbols interval cache w
    = (Ok (cache', cols),
       snd (monitor sqrt network_up yf_download symbols interval cache w)) ∧
    length cols = length symbols ∧
    (∀ s, s ∈ symbols → is_Some (cache' !! s)) ∧
    (∀ s, is_Some (cache !! s) → is_Some (cache' !! s)).
Proof.
  revert cache w. induction symbols as [|sym rest IH]; intros cache w.
  - exists cache, []. simpl. unfold ret. repeat split; try done.
    intros s Hs. by apply elem_of_nil in Hs.
  - destruct (monitor_cons sym rest interval cache w) as (e & He & ->).
    destruct (IH (<[sym := e]> cache)
                 (snd (analyze_strategy sqrt network_up
                         (fetched yf_download sym interval) sym w)))
      as (cache' & cols & -> & Hlen & Hin & Hkeep).
    eexists _, _. split; [reflexivity|]. simpl.
    split; [by rewrite Hlen|]. split.
    + intros s Hs. apply elem_of_cons in Hs as [->|Hs]; [|by apply Hin].
      apply Hkeep. rewrite lookup_insert_eq. eauto.
    + intros s Hs. apply Hkeep.
      destruct (decide (s = sym)) as [->|Hne].
      * rewrite lookup_insert_eq. eauto.
      * by rewrite lookup_insert_ne.
Qed.

Lemma charts_Some (symbols : list string)
    (cache : gmap string (option (list Row * Info))) :
  (∀ s, s ∈ symbols → is_Some (cache !! s)) →
  ∃ cs, charts symbols cache = Some cs ∧ length cs = length symbols.
Proof.
  induction symbols as [|sym rest IH]; intros Hin; simpl; [by eexists|].
  destruct (Hin sym) as [e He]; [left|]. rewrite He.
  destruct IH as (cs & -> & Hlen); [intros s Hs; apply Hin; by right|].
  eexists. split; [reflexivity|]. simpl. by rewrite Hlen.
Qed.

Lemma refresh_Ok (symbols : list string) (interval : string) (w : World) :
  ∃ page,
    refresh sqrt network_up yf_download symbols interval w
    = (Ok (Some page),
       snd (refresh sqrt network_up yf_download symbols interval w)).
Proof.
  unfold refresh, bind.
  destruct (monitor_Ok symbols interval ∅ w)
    as (cache' & cols & -> & Hlen & Hin & _).
  destruct (charts_Some symbols cache' Hin) as (cs & Hcs & Hclen).
  simpl. rewrite Hcs. unfold ret. eauto.
Qed.


(** The effect of the loop on the world. *)
Lemma monitor_world (symbols : list string) (interval : string)
    (cache : gmap string (option (list Row * Info))) (w : World) :
  let w' := snd (monitor sqrt network_up yf_download symbols interval cache w) in
  (∃ new, posted w' = (posted w ++ new)%list ∧
          (length new ≤ length symbols)%nat) ∧
  (∀ s, s ∉ symbols → last_alerts w' !! s = last_alerts w !! s) ∧
  (∀ s, is_Some (last_alerts w !! s) → is_Some (last_alerts w' !! s)) ∧
  (well_keyed (last_alerts w) → well_keyed (last_alerts w')).
Proof.
  revert cache w. induction symbols as [|sym rest IH]; intros cache w; cbv zeta.
  - simpl. split; [exists []; by rewrite app_nil_r|]. done.
  - destruct (monitor_cons sym rest interval cache w) as (e & He & ->).
    set (w1 := snd (analyze_strategy sqrt network_up
                      (fetched yf_download sym interval) sym w)).
    specialize (IH (<[sym := e]> cache) w1). cbv zeta in IH.
    destruct (monitor_Ok rest interval (<[sym := e]> cache) w1)
      as (cache' & cols & Hm & _).
    rewrite Hm in *. cbn [snd] in *.
    set (w' := snd (monitor sqrt network_up yf_download rest interval
                      (<[sym := e]> cache) w1)) in *.
    destruct IH as ((new & Hnew & Hlen) & Hother & Hkeep & Hwk).
    pose proof (request_or_not sqrt network_up
                  (fetched yf_download sym interval) sym w) as Hstep.
    fold w1 in Hstep.
    destruct Hstep as [Hw1 | (text & key & Hp & Hl & Hmsg)].
    + rewrite Hw1 in *. split; [exists new; split; [done|simpl; lia]|].
      split; [intros s Hs; apply Hother; set_solver|]. done.
    + split; [|split; [|split]].
      * eexists (_ :: new). split.
        { rewrite Hnew, Hp, <- app_assoc. reflexivity. }
        simpl. lia.
      * intros s Hs. rewrite Hother by set_solver.
        rewrite Hl, lookup_insert_ne; [done|]. set_solver.
      * intros s Hs. apply Hkeep. rewrite Hl.
        destruct (decide (s = sym)) as [->|Hne].
        -- rewrite lookup_insert_eq. eauto.
        -- by rewrite lookup_insert_ne.
      * intros Hw. apply Hwk. rewrite Hl. intros s k Hk.
        destruct (decide (s = sym)) as [->|Hne].
        -- rewrite lookup_insert_eq in Hk. injection Hk as <-.
           destruct Hmsg as (m & Hm' & ->). eauto.
        -- rewrite lookup_insert_ne in Hk by done. by apply Hw.
Qed.

Lemma refresh_world (symbols : list string) (interval : string) (w : World) :
  snd (refresh sqrt network_up yf_download symbols interval w)
  = snd (monitor sqrt network_up yf_download symbols interval ∅ w).
Proof.
  unfold refresh, bind.
  destruct (monitor_Ok symbols interval ∅ w) as (cache' & cols & -> & _).
  reflexivity.
Qed.

(** X17.  What a pass does to the world: it appends at most one request
    per listed symbol to the log and removes none; it leaves the entry of
    every symbol that is not listed as it was; it removes no entry; and it
    keeps the alert state well keyed. *)
Theorem refresh_effect_on_world (symbols : list string) (interval : string)
    (w : World) :
  let w' := snd (refresh sqrt network_up yf_download symbols interval w) in
  (∃ new, posted w' = (posted w ++ new)%list ∧
          (length new ≤ length symbols)%nat) ∧
  (∀ s, s ∉ symbols → last_alerts w' !! s = last_alerts w !! s) ∧
  (∀ s, is_Some (last_alerts w !! s) → is_Some (last_alerts w' !! s)) ∧
  (well_keyed (last_alerts w) → well_keyed (last_alerts w')).
Proof. cbv zeta. rewrite refresh_world. apply monitor_world. Qed.




(** Entries that are settled stay as they are through the loop. *)
Lemma monitor_keeps_settled_entry (symbols : list string) (interval : string)
    (cache : gmap string (option (list Row * Info))) (w : World)
    (s key : string) :
  pending_key sqrt (fetched yf_download s interval) s = Some key →
  last_alerts w !! s = Some key →
  last_alerts (snd (monitor sqrt network_up yf_download symbols interval cache w))
    !! s = Some key.
Proof.
  intros Hkey. revert cache w.
  induction symbols as [|sym rest IH]; intros cache w Hw; [done|].
  destruct (monitor_cons sym rest interval cache w) as (e & He & ->).
  destruct (monitor_Ok rest interval (<[sym := e]> cache)
              (snd (analyze_strategy sqrt network_up
                      (fetched yf_download sym interval) sym w)))
    as (cache' & cols & Hm & _).
  rewrite Hm. cbn [snd]. apply IH.
  pose proof (analyze_strategy_effect sqrt network_up
                (fetched yf_download sym interval) sym w) as Heff.
  cbv zeta in Heff.
  destruct (pending_key sqrt (fetched yf_download sym interval) sym)
    as [key'|] eqn:Hk'; [|by rewrite Heff].
  destruct (bool_decide_reflect (last_alerts w !! sym = Some key')) as [Hb|Hb];
    [by rewrite Heff|].
  destruct Heff as [text ->]. simpl.
  destruct (decide (s = sym)) as [->|Hne].
  - congruence.
  - by rewrite lookup_insert_ne.
Qed.

Lemma monitor_settles (symbols : list string) (interval : string)
    (cache : gmap string (option (list Row * Info))) (w : World) :
  settled sqrt yf_download symbols interval
    (snd (monitor sqrt network_up yf_download symbols interval cache w)).
Proof.
  revert cache w. induction symbols as [|sym rest IH]; intros cache w s key Hs Hk.
  - by apply elem_of_nil in Hs.
  - destruct (monitor_cons sym rest interval cache w) as (e & He & ->).
    set (w1 := snd (analyze_strategy sqrt network_up
                      (fetched yf_download sym interval) sym w)).
    destruct (monitor_Ok rest interval (<[sym := e]> cache) w1)
      as (cache' & cols & Hm & _).
    rewrite Hm. cbn [snd].
    destruct (decide (s ∈ rest)) as [Hr|Hr]; [by apply IH|].
    apply elem_of_cons in Hs as [->|Hs]; [|done].
    apply monitor_keeps_settled_entry; [done|].
    pose proof (analyze_strategy_effect sqrt network_up
                  (fetched yf_download sym interval) sym w) as Heff.
    cbv zeta in Heff. fold w1 in Heff. rewrite Hk in Heff.
    destruct (bool_decide_reflect (last_alerts w !! sym = Some key)) as [Hb|Hb].
    + by rewrite Heff.
    + destruct Heff as [text ->]. simpl. by rewrite lookup_insert_eq.
Qed.

Lemma monitor_settled_unchanged (symbols : list string) (interval : string)
    (cache : gmap string (option (list Row * Info))) (w : World) :
  settled sqrt yf_download symbols interval w →
  snd (monitor sqrt network_up yf_download symbols interval cache w) = w.
Proof.
  revert cache w. induction symbols as [|sym rest IH]; intros cache w Hs; [done|].
  destruct (monitor_cons sym rest interval cache w) as (e & He & ->).
  assert (Hw1 : snd (analyze_strategy sqrt network_up
                       (fetched yf_download sym interval) sym w) = w).
  { pose proof (analyze_strategy_effect sqrt network_up
                  (fetched yf_download sym interval) sym w) as Heff.
    cbv zeta in Heff.
    destruct (pending_key sqrt (fetched yf_download sym interval) sym)
      as [key|] eqn:Hk; [|done].
    rewrite bool_decide_eq_true_2 in Heff; [done|].
    apply Hs; [left|done]. }
  rewrite Hw1.
  destruct (monitor_Ok rest interval (<[sym := e]> cache) w)
    as (cache' & cols & Hm & _).
  rewrite Hm. cbn [snd]. apply IH.
  intros s key Hin. apply Hs. by right.
Qed.

(** X19.  Only the first pass notifies while the downloads stay the same:
    after any number of further passes the world is exactly the one the
    first pass left, so over all the passes at most one request per listed
    symbol is made. *)
Theorem later_passes_are_silent (n : nat) (symbols : list string)
    (interval : string) (w : World) :
  passes sqrt network_up yf_download (S n) symbols interval w
  = (Ok tt, snd (refresh sqrt network_up yf_download symbols interval w)) ∧
  ∃ new,
    posted (snd (passes sqrt network_up yf_download (S n) symbols interval w))
      = (posted w ++ new)%list ∧
    (length new ≤ length symbols)%nat.
Proof.
  assert (Hsilent : ∀ m w1,
    settled sqrt yf_download symbols interval w1 →
    passes sqrt network_up yf_download m symbols interval w1 = (Ok tt, w1)).
  { induction m as [|m IHm]; intros w1 Hs; [done|].
    simpl. unfold bind at 1.
    destruct (refresh_Ok symbols interval w1) as (page & ->).
    rewrite refresh_world, monitor_settled_unchanged by done.
    by apply IHm. }
  assert (Hfirst : passes sqrt network_up yf_download (S n) symbols interval w
    = (Ok tt, snd (refresh sqrt network_up yf_download symbols interval w))).
  { simpl. unfold bind at 1.
    destruct (refresh_Ok symbols interval w) as (page & ->).
    apply Hsilent. rewrite refresh_world. apply monitor_settles. }
  split; [exact Hfirst|].
  rewrite Hfirst. cbn [snd]. rewrite refresh_world.
  apply monitor_world.
Qed.

End Loop.


(** ** Start-up *)

(** X20.  The script gets past its first lines exactly when the secrets
    hold a "telegram" table with both "bot_token" and "chat_id"; any of the
    three missing halts it before anything is downloaded or sent.  When it
    runs, it works on the alert state of the session, created empty only
    when the session has none, so the keys stored by earlier runs are
    kept. *)
Theorem script_runs_iff_configured (sqrt : Qc → Qc) (network_up : nat → bool)
    (yf_download : string → string → option (list Bar))
    (secrets : gmap string (gmap string string))
    (symbols : list string) (interval : string)
    (session : option (gmap string string)) (log : list (TgText * bool)) :
  let configured :=
    ∃ section token chat,
      secrets !! "telegram" = Some section ∧
      section !! "bot_token" = Some token ∧
      section !! "chat_id" = Some chat in
  (¬ configured →
     script sqrt network_up yf_download secrets symbols interval session log
     = None) ∧
  (configured →
     script sqrt network_up yf_download secrets symbols interval session log
     = Some (refresh sqrt network_up yf_download symbols interval
               (mkWorld (match session with Some alerts => alerts | None => ∅ end)
                        log))).
Proof.
  cbv zeta. unfold script, read_secrets, init_session.
  destruct (secrets !! "telegram") as [section|] eqn:Hs.
  - destruct (section !! "bot_token") as [token|] eqn:Ht.
    + destruct (section !! "chat_id") as [chat|] eqn:Hc.
      * split; [|done]. intros Hn. destruct Hn. eauto 10.
      * split; [done|]. intros (s' & t' & c' & [= <-] & _ & Hc'). congruence.
    + split; [done|]. intros (s' & t' & c' & [= <-] & Ht' & _). congruence.
  - split; [done|]. intros (s' & t' & c' & Hs' & _). congruence.
Qed.

(** ** The list of symbols *)

Ltac by_cases_on_char c :=
  destruct c as [[] [] [] [] [] [] [] []]; vm_compute; try reflexivity;
  try discriminate; auto.

Lemma is_space_upper_char (c : Ascii.ascii) : is_space (upper_char c) = is_space c.
Proof. by_cases_on_char c. Qed.

Lemma upper_char_idem (c : Ascii.ascii) : upper_char (upper_char c) = upper_char c.
Proof. by_cases_on_char c. Qed.

Lemma is_ascii_upper_char (c : Ascii.ascii) : is_ascii (upper_char c) = is_ascii c.
Proof. by_cases_on_char c. Qed.

Lemma is_comma_upper_char (c : Ascii.ascii) :
  Ascii.eqb (upper_char c) comma = Ascii.eqb c comma.
Proof. by_cases_on_char c. Qed.

Lemma comma_not_space (c : Ascii.ascii) :
  Ascii.eqb c comma = true → is_space c = false.
Proof. by_cases_on_char c. Qed.

Lemma upper_idem (s : string) : upper (upper s) = upper s.
Proof. induction s as [|c s IH]; simpl; [done|]. by rewrite upper_char_idem, IH. Qed.

Lemma commas_upper (s : string) : commas (upper s) = commas s.
Proof.
  induction s as [|c s IH]; simpl; [done|].
  by rewrite is_comma_upper_char, IH.
Qed.

Lemma all_ascii_upper (s : string) : all_ascii (upper s) = all_ascii s.
Proof.
  induction s as [|c s IH]; simpl; [done|].
  by rewrite is_ascii_upper_char, IH.
Qed.

Lemma lstrip_upper (s : string) : lstrip (upper s) = upper (lstrip s).
Proof.
  induction s as [|c s IH]; simpl; [done|].
  rewrite is_space_upper_char. by destruct (is_space c).
Qed.

Lemma rstrip_upper (s : string) : rstrip (upper s) = upper (rstrip s).
Proof.
  induction s as [|c s IH]; simpl; [done|].
  rewrite IH, is_space_upper_char.
  destruct (rstrip s); simpl; [by destruct (is_space c)|done].
Qed.

Lemma strip_upper (s : string) : strip (upper s) = upper (strip s).
Proof. unfold strip. by rewrite rstrip_upper, lstrip_upper. Qed.

Lemma lstrip_idem (s : string) : lstrip (lstrip s) = lstrip s.
Proof.
  induction s as [|c s IH]; simpl; [done|].
  destruct (is_space c) eqn:Hc; [done|]. simpl. by rewrite Hc.
Qed.

Lemma rstrip_idem (s : string) : rstrip (rstrip s) = rstrip s.
Proof.
  induction s as [|c s IH]; simpl; [done|].
  destruct (rstrip s) as [|c' r'] eqn:Hr.
  - destruct (is_space c) eqn:Hc; simpl; [done|]. by rewrite Hc.
  - change (rstrip (String c (String c' r'))) with
      (match rstrip (String c' r') with
       | EmptyString => if is_space c then EmptyString else String c EmptyString
       | r'' => String c r''
       end).
    by rewrite IH.
Qed.

Lemma rstrip_lstrip_fixed (s : string) :
  rstrip s = s → rstrip (lstrip s) = lstrip s.
Proof.
  induction s as [|c s IH]; intros Hs; [done|].
  simpl. destruct (is_space c) eqn:Hc; [|exact Hs].
  apply IH. simpl in Hs. rewrite Hc in Hs.
  destruct (rstrip s) as [|c' r'] eqn:Hr; [discriminate|].
  by injection Hs.
Qed.

Lemma strip_idem (s : string) : strip (strip s) = strip s.
Proof.
  unfold strip.
  rewrite (rstrip_lstrip_fixed (rstrip s)) by apply rstrip_idem.
  apply lstrip_idem.
Qed.

Lemma all_ascii_lstrip (s : string) : all_ascii s = true → all_ascii (lstrip s) = true.
Proof.
  induction s as [|c s IH]; simpl; [done|]. intros H.
  apply andb_true_iff in H as [Hc Hs].
  destruct (is_space c); [by apply IH|]. simpl. by rewrite Hc, Hs.
Qed.

Lemma all_ascii_rstrip (s : string) : all_ascii s = true → all_ascii (rstrip s) = true.
Proof.
  induction s as [|c s IH]; simpl; [done|]. intros H.
  apply andb_true_iff in H as [Hc Hs]. specialize (IH Hs).
  destruct (rstrip s); simpl in *.
  - destruct (is_space c); simpl; [done|]. by rewrite Hc.
  - by rewrite Hc, IH.
Qed.

Lemma commas_lstrip (s : string) : commas s = O → commas (lstrip s) = O.
Proof.
  induction s as [|c s IH]; simpl; [done|]. intros H.
  destruct (is_space c); [|done].
  apply IH. by destruct (Ascii.eqb c comma).
Qed.

Lemma commas_rstrip (s : string) : commas s = O → commas (rstrip s) = O.
Proof.
  induction s as [|c s IH]; simpl; [done|]. intros H.
  destruct (Ascii.eqb c comma) eqn:Hc; [discriminate|]. specialize (IH H).
  destruct (rstrip s); simpl in *.
  - destruct (is_space c); simpl; [done|]. by rewrite Hc.
  - by rewrite Hc.
Qed.

Lemma split_comma_cons (s : string) : ∃ piece pieces, split_comma s = piece :: pieces.
Proof.
  induction s as [|c s (p & ps & IH)]; simpl; [eauto|].
  destruct (Ascii.eqb c comma); [eauto|]. rewrite IH. eauto.
Qed.

Lemma length_split_comma (s : string) : length (split_comma s) = S (commas s).
Proof.
  induction s as [|c s IH]; simpl; [done|].
  destruct (Ascii.eqb c comma); simpl; [by rewrite IH|].
  destruct (split_comma_cons s) as (p & ps & Hp). rewrite Hp in *. done.
Qed.

Lemma split_comma_pieces (s : string) :
  ∀ piece, piece ∈ split_comma s →
           commas piece = O ∧ (all_ascii s = true → all_ascii piece = true).
Proof.
  induction s as [|c s IH]; simpl; intros piece Hp.
  - apply list_elem_of_singleton in Hp as ->. done.
  - destruct (Ascii.eqb c comma) eqn:Hc.
    + apply elem_of_cons in Hp as [->|Hp]; [done|].
      destruct (IH piece Hp) as [H1 H2]. split; [done|].
      intros H. apply andb_true_iff in H as [_ H]. auto.
    + destruct (split_comma_cons s) as (p & ps & Hs). rewrite Hs in *.
      apply elem_of_cons in Hp as [->|Hp].
      * destruct (IH p) as [H1 H2]; [left|]. simpl. rewrite Hc.
        split; [done|]. intros H. apply andb_true_iff in H as [Ha H].
        by rewrite Ha, H2.
      * destruct (IH piece) as [H1 H2]; [by right|]. split; [done|].
        intros H. apply andb_true_iff in H as [_ H]. auto.
Qed.

Lemma split_comma_plain (s : string) : commas s = O → split_comma s = [s].
Proof.
  induction s as [|c s IH]; simpl; [done|].
  destruct (Ascii.eqb c comma); [discriminate|]. intros H. by rewrite IH.
Qed.

Lemma split_comma_app (p rest : string) :
  commas p = O →
  split_comma (p ++ String comma rest) = p :: split_comma rest.
Proof.
  induction p as [|c p IH]; simpl; [done|].
  destruct (Ascii.eqb c comma); [discriminate|]. intros H. by rewrite IH.
Qed.

Lemma split_join_comma (pieces : list string) :
  pieces ≠ [] → (∀ p, p ∈ pieces → commas p = O) →
  split_comma (join_comma pieces) = pieces.
Proof.
  induction pieces as [|p rest IH]; intros Hne Hc; [done|].
  destruct rest as [|q rest].
  - simpl. apply split_comma_plain, Hc. left.
  - change (join_comma (p :: q :: rest))
      with (p ++ String comma (join_comma (q :: rest))).
    rewrite split_comma_app by (apply Hc; left).
    rewrite IH; [done|done|]. intros p' Hp'. apply Hc. by right.
Qed.

Lemma all_ascii_app (a b : string) :
  all_ascii (a ++ b) = all_ascii a && all_ascii b.
Proof. induction a as [|c a IH]; simpl; [done|]. by rewrite IH, andb_assoc. Qed.

Lemma all_ascii_join (pieces : list string) :
  (∀ p, p ∈ pieces → all_ascii p = true) → all_ascii (join_comma pieces) = true.
Proof.
  induction pieces as [|p rest IH]; intros Hp; [done|].
  destruct rest as [|q rest]; [apply Hp; left|].
  change (join_comma (p :: q :: rest))
    with (p ++ String comma (join_comma (q :: rest))).
  rewrite all_ascii_app. cbn [all_ascii].
  rewrite (Hp p) by left. rewrite IH; [done|].
  intros p' Hp'. apply Hp. by right.
Qed.

Lemma symbol_normal (text piece : string) :
  all_ascii text = true → piece ∈ split_comma text →
  let s := upper (strip piece) in
  commas s = O ∧ all_ascii s = true ∧ upper (strip s) = s.
Proof.
  intros Ha Hp. cbv zeta.
  destruct (split_comma_pieces text piece Hp) as [Hc Hasc].
  split; [|split].
  - rewrite commas_upper. unfold strip. by apply commas_lstrip, commas_rstrip.
  - rewrite all_ascii_upper. unfold strip.
    by apply all_ascii_lstrip, all_ascii_rstrip, Hasc.
  - by rewrite strip_upper, strip_idem, upper_idem.
Qed.

(** X21.  On ASCII text the list of symbols is never empty (so the summary
    always has at least one column), it has one symbol more than the text
    has commas, and every symbol is in normal form: no comma, no white
    space at either end, no lower-case letter. *)
Theorem symbols_are_normalised (text : string) (syms : list string) :
  symbols_of text = Some syms →
  syms ≠ [] ∧ length syms = S (commas text) ∧
  ∀ s, s ∈ syms → commas s = O ∧ strip s = s ∧ upper s = s.
Proof.
  unfold symbols_of. destruct (all_ascii text) eqn:Ha; [|discriminate].
  intros [= <-]. split; [|split].
  - destruct (split_comma_cons text) as (p & ps & ->). done.
  - by rewrite length_fmap, length_split_comma.
  - intros s Hs. apply list_elem_of_fmap in Hs as (piece & -> & Hp).
    destruct (symbol_normal text piece Ha Hp) as (Hc & _ & Hn).
    split; [done|]. split.
    + by rewrite strip_upper, strip_idem.
    + apply upper_idem.
Qed.

Lemma symbols_are_normalised_witness :
  symbols_of " aapl ,, btc-usd  " = Some ["AAPL"; ""; "BTC-USD"] ∧
  ["AAPL"; ""; "BTC-USD"] ≠ [] ∧
  length ["AAPL"; ""; "BTC-USD"] = S (commas " aapl ,, btc-usd  ").
Proof.
  assert (H : symbols_of " aapl ,, btc-usd  " = Some ["AAPL"; ""; "BTC-USD"])
    by reflexivity.
  split; [exact H|].
  destruct (symbols_are_normalised _ _ H) as (H1 & H2 & _). by split.
Defined.

(** X22.  Normalising is idempotent: joining the symbols with commas and
    reading the result again gives the same symbols. *)
Theorem symbols_round_trip (text : string) (syms : list string) :
  symbols_of text = Some syms →
  symbols_of (join_comma syms) = Some syms.
Proof.
  unfold symbols_of. destruct (all_ascii text) eqn:Ha; [|discriminate].
  intros [= <-].
  set (syms := (λ s, upper (strip s)) <$> split_comma text).
  assert (Hn : ∀ s, s ∈ syms →
                    commas s = O ∧ all_ascii s = true ∧ upper (strip s) = s).
  { intros s Hs. apply list_elem_of_fmap in Hs as (piece & -> & Hp).
    exact (symbol_normal text piece Ha Hp). }
  rewrite all_ascii_join by (intros p Hp; by apply Hn).
  f_equal. rewrite split_join_comma.
  - rewrite <- (list_fmap_id syms) at 2.
    apply list_fmap_ext. intros i s Hs. apply Hn.
    by eapply list_elem_of_lookup_2.
  - subst syms. destruct (split_comma_cons text) as (p & ps & ->). done.
  - intros p Hp. by apply Hn.
Qed.

Lemma symbols_round_trip_witness :
  symbols_of "AAPL, NVDA, TSLA, BTC-USD" = Some ["AAPL"; "NVDA"; "TSLA"; "BTC-USD"] ∧
  symbols_of (join_comma ["AAPL"; "NVDA"; "TSLA"; "BTC-USD"])
  = Some ["AAPL"; "NVDA"; "TSLA"; "BTC-USD"].
Proof.
  assert (H : symbols_of "AAPL, NVDA, TSLA, BTC-USD"
              = Some ["AAPL"; "NVDA"; "TSLA"; "BTC-USD"]) by reflexivity.
  split; [exact H|]. exact (symbols_round_trip _ _ H).
Defined.
